(** * driver.py: case segmentation, execution strategies and test harness

    A shallow embedding of [driver.py] (Python 2.7).  Python values that the
    driver manipulates are modelled as follows:
    - byte strings ([str]) as [string];
    - Python integers as [Z];
    - a raised exception as a value [exn] (class and message), computations
      that may raise as [exn + A];
    - a generator as the finite [trace] of events it produces when it is
      resumed until it finishes (the generators of this module take no
      input from their consumer, so the trace determines them). *)

From Stdlib Require Import Ascii String DecimalString.
From Stdlib Require Import ZArith Lia Bool List Permutation.
Import ListNotations.

Local Open Scope string_scope.
Local Open Scope Z_scope.
Local Open Scope list_scope.

(** ** Python values shared by the whole module *)

Module Py.

(** The part of the Python 2.7 exception hierarchy the driver can meet. *)
Inductive exn_class :=
| BaseException
| KeyboardInterrupt
| Exception
| StopIteration
| StandardError
| AssertionError
| AttributeError
| NameError
| TypeError
| ValueError.

Definition exn_class_eqb (a b : exn_class) : bool :=
  match a, b with
  | BaseException, BaseException | KeyboardInterrupt, KeyboardInterrupt
  | Exception, Exception | StopIteration, StopIteration
  | StandardError, StandardError | AssertionError, AssertionError
  | AttributeError, AttributeError | NameError, NameError
  | TypeError, TypeError | ValueError, ValueError => true
  | _, _ => false
  end.

(** Method resolution order of each class (the class first). *)
Definition mro (c : exn_class) : list exn_class :=
  match c with
  | BaseException => [BaseException]
  | KeyboardInterrupt => [KeyboardInterrupt; BaseException]
  | Exception => [Exception; BaseException]
  | StopIteration => [StopIteration; Exception; BaseException]
  | StandardError => [StandardError; Exception; BaseException]
  | AssertionError => [AssertionError; StandardError; Exception; BaseException]
  | AttributeError => [AttributeError; StandardError; Exception; BaseException]
  | NameError => [NameError; StandardError; Exception; BaseException]
  | TypeError => [TypeError; StandardError; Exception; BaseException]
  | ValueError => [ValueError; StandardError; Exception; BaseException]
  end.

(** [issubclass c d]: what an [except d:] clause tests on an exception
    whose class is [c]. *)
Definition issubclass (c d : exn_class) : bool :=
  existsb (exn_class_eqb d) (mro c).

Record exn := Raise { exn_cls : exn_class; exn_msg : string }.

(** Computations that return a value or raise. *)
Definition result (A : Type) : Type := (exn + A)%type.

Definition ret {A} (a : A) : result A := inr a.
Definition raise {A} (c : exn_class) (m : string) : result A :=
  inl (Raise c m).

Definition bind {A B} (m : result A) (k : A -> result B) : result B :=
  match m with
  | inl e => inl e
  | inr a => k a
  end.

Declare Scope py_scope.
Delimit Scope py_scope with py.
Notation "x <- m ;; k" := (bind m (fun x => k))
  (at level 61, m at next level, right associativity) : py_scope.
Notation "m ;; k" := (bind m (fun _ => k))
  (at level 61, right associativity) : py_scope.

(** [isspace] of a byte in the C locale, as [str.strip] and [int] use it. *)
Definition isspace (c : ascii) : bool :=
  let n := nat_of_ascii c in
  (Nat.eqb n 32 || (Nat.leb 9 n && Nat.leb n 13))%bool.

Definition isdigit (c : ascii) : bool :=
  let n := nat_of_ascii c in (Nat.leb 48 n && Nat.leb n 57)%bool.

(** Truth value of a [str]: the empty string is false. *)
Definition truthy (s : string) : bool :=
  match s with
  | EmptyString => false
  | String _ _ => true
  end.

Fixpoint lstrip (s : string) : string :=
  match s with
  | EmptyString => EmptyString
  | String c s' => if isspace c then lstrip s' else s
  end.

Fixpoint rstrip (s : string) : string :=
  match s with
  | EmptyString => EmptyString
  | String c s' =>
      match rstrip s' with
      | EmptyString => if isspace c then EmptyString else String c EmptyString
      | r => String c r
      end
  end.

(** [str.strip()]: whitespace is removed at both ends. *)
Definition strip (s : string) : string := rstrip (lstrip s).

(** The last byte of a text, if any. *)
Fixpoint last_byte (s : string) : option ascii :=
  match s with
  | EmptyString => None
  | String c EmptyString => Some c
  | String _ s' => last_byte s'
  end.

Fixpoint all_space (s : string) : bool :=
  match s with
  | EmptyString => true
  | String c s' => (isspace c && all_space s')%bool
  end.

(** Value of a run of decimal digits, most significant first; [None] when
    a byte is not a digit. *)
Fixpoint digits (acc : Z) (s : string) : option Z :=
  match s with
  | EmptyString => Some acc
  | String c s' =>
      if isdigit c
      then digits (10 * acc + Z.of_nat (nat_of_ascii c - 48)) s'
      else None
  end.

(** [int(s)] on a [str] in base ten: whitespace around the literal is
    ignored, then an optional sign and at least one digit; anything else
    raises [ValueError]. *)
Definition int (s : string) : result Z :=
  let bad := raise ValueError "invalid literal for int() with base 10" in
  match strip s with
  | EmptyString => bad
  | String c t =>
      let '(neg, body) :=
        if Ascii.eqb c "-"%char then (true, t)
        else if Ascii.eqb c "+"%char then (false, t)
        else (false, String c t) in
      match body with
      | EmptyString => bad
      | _ => match digits 0 body with
             | Some n => ret (if neg then - n else n)
             | None => bad
             end
      end
  end.

End Py.

Export Py.

(** ** The case segmenter: [test_case_iter] *)

Module Segmenter.

(** What the generator yields: the stripped line when
    [lines_per_case == 1], otherwise the list [next] of stripped lines. *)
Inductive case :=
| CaseLine (line : string)
| CaseGroup (lines : list string).

(** The events of a generator run on a finite input: each [TYield] is one
    value handed to the consumer, [TStop] is the normal end of the
    iteration and [TRaise] an exception that leaves the generator. *)
Inductive trace (A : Type) :=
| TYield (a : A) (rest : trace A)
| TStop
| TRaise (e : exn).
Arguments TYield {A} a rest.
Arguments TStop {A}.
Arguments TRaise {A} e.

Definition too_many : exn := Raise AssertionError "Too many inputs".
Definition too_few : exn := Raise AssertionError "Too few inputs".

(** The body of [for line in seq:], from the state [(ctr, next)]. *)
Fixpoint loop (expected lines_per_case ctr : Z) (next : option (list string))
         (seq : list string) : trace case :=
  match seq with
  | [] => TStop
  | line :: seq' =>
      let cases := ctr / lines_per_case in
      if truthy line then
        if (expected <? 0) || (cases <? expected) then
          let line := strip line in
          let ctr := ctr + 1 in
          if lines_per_case =? 1 then
            TYield (CaseLine line) (loop expected lines_per_case ctr next seq')
          else
            let next :=
              match next with
              | Some (x :: l) => (x :: l) ++ [line]
              | _ => [line]
              end in
            if ctr mod lines_per_case =? 0 then
              TYield (CaseGroup next) (loop expected lines_per_case ctr None seq')
            else
              loop expected lines_per_case ctr (Some next) seq'
        else TRaise too_many
      else
        if (expected <? 0) || (cases =? expected) then TStop
        else TRaise too_few
  end.

(** [test_case_iter(seq, lines_per_case)] where [seq] iterates over the
    given lines.  A [StopIteration] raised by [seq.next()] inside the
    generator ends the iteration. *)
Definition test_case_iter (seq : list string) (lines_per_case : Z) : trace case :=
  if lines_per_case <? 1 then
    TRaise (Raise AssertionError "lines_per_case must be >= 1")
  else
    match seq with
    | [] => TStop
    | first :: seq' =>
        match int first with
        | inl e => TRaise e
        | inr expected => loop expected lines_per_case 0 None seq'
        end
    end.

(** The values a consumer receives, and how the iteration ends. *)
Fixpoint yielded {A} (t : trace A) : list A :=
  match t with
  | TYield a rest => a :: yielded rest
  | _ => []
  end.

Fixpoint ending {A} (t : trace A) : option exn :=
  match t with
  | TYield _ rest => ending rest
  | TStop => None
  | TRaise e => Some e
  end.

(** [prepend l t]: the trace that yields the elements of [l], then
    continues as [t]. *)
Fixpoint prepend {A} (l : list A) (t : trace A) : trace A :=
  match l with
  | [] => t
  | a :: l' => TYield a (prepend l' t)
  end.

End Segmenter.

Export Segmenter.

(** ** The driver class [Main]: pipeline executor and serial strategy *)

Module Driver.

(** A job is one element of [enumerate(cases, 1)]. *)
Definition job : Type := (Z * case)%type.

(** [enumerate(cases, start)] over a generator. *)
Fixpoint enumerate {A} (t : trace A) (start : Z) : trace (Z * A) :=
  match t with
  | TYield a rest => TYield (start, a) (enumerate rest (start + 1))
  | TStop => TStop
  | TRaise e => TRaise e
  end.

(** [enumerate(results, 1)] over a list. *)
Fixpoint enumerate_list {A} (l : list A) (start : Z) : list (Z * A) :=
  match l with
  | [] => []
  | a :: l' => (start, a) :: enumerate_list l' (start + 1)
  end.

Section Main.

(** [P] is what [parse_input] returns and [R] what [solve] returns. *)
Context {P R : Type}.

(** An instance of [Main] or of a subclass.  [threads] is an attribute
    that only [run] sets, and only when [--threads] is above one;
    [execute_all] is the method [DriverTestCase._run] calls, which
    [Main] itself does not define: [None] stands for a missing
    attribute.  [str_] is [str] on a result. *)
Record Main := {
  name : string;
  lines_per_case : Z;
  threads : option Z;
  parse_input : Z -> case -> result P;
  solve : Z -> P -> result R;
  str_ : R -> string;
  execute_all : option (trace job -> result (list R))
}.

Variable self : Main.

(** [Main.execute] *)
Definition execute (j : job) : result R :=
  let '(case_num, input_str) := j in
  bind (parse_input self case_num input_str) (solve self case_num).

(** [Main.execute_serially]: the list comprehension pulls one job from
    the generator, executes it, and only then pulls the next. *)
Fixpoint execute_serially (jobs : trace job) : result (list R) :=
  match jobs with
  | TYield j rest =>
      (r <- execute j ;;
       rs <- execute_serially rest ;;
       ret (r :: rs))%py
  | TStop => ret []
  | TRaise e => inl e
  end.

(** [Main.print_result], the sink being the text written so far. *)
Definition print_result (case_num : Z) (r : R) (outfile : string) : string :=
  (outfile ++ "Case #" ++ NilZero.string_of_int (Z.to_int case_num)
           ++ ": " ++ str_ self r ++ String "010"%char EmptyString)%string.

End Main.

(** [Main.parse_input] and [Main.solve] as the base class defines them. *)
Definition Main_parse_input (case_num : Z) (input_str : case) : result case :=
  ret input_str.

Definition Main_solve {R} (case_num : Z) (c : case) : result R :=
  raise Exception "not implemented".

End Driver.

Export Driver.

(** ** [multiprocessing.Pool.map], the ordered parallel map

  [execute_threaded] hands the jobs to [Pool.map] of the Python 2.7
  standard library.  The model follows [Lib/multiprocessing/pool.py]:
  the iterable is turned into a list, cut into batches of [chunksize]
  jobs, each batch is mapped by some worker, and the result handler stores
  each batch result into the slots of a [MapResult] as it arrives.  The
  order in which the batch results arrive is not determined by the
  program: it is the parameter [sched] below. *)

Module Pool.

Inductive pool_outcome (A : Type) :=
| Returned (a : A)
| Raised (e : exn)
| Blocked.
Arguments Returned {A} a.
Arguments Raised {A} e.
Arguments Blocked {A}.

(** [list(iterable)] *)
Fixpoint to_list {A} (t : trace A) : result (list A) :=
  match t with
  | TYield a rest => (l <- to_list rest ;; ret (a :: l))%py
  | TStop => ret []
  | TRaise e => inl e
  end.

Section Map.

Context {A B : Type}.
Variable func : A -> result B.

(** [Pool._get_tasks]: successive [islice(it, size)] until one is
    empty; [fuel] bounds the number of batches. *)
Fixpoint get_tasks (fuel size : nat) (it : list A) : list (list A) :=
  match fuel with
  | O => []
  | S fuel' =>
      match firstn size it with
      | [] => []
      | x => x :: get_tasks fuel' size (skipn size it)
      end
  end.

(** [mapstar] in a worker: [map(func, batch)], the first exception in
    batch order leaving the call. *)
Fixpoint mapstar (batch : list A) : result (list B) :=
  match batch with
  | [] => ret []
  | a :: batch' =>
      (b <- func a ;; bs <- mapstar batch' ;; ret (b :: bs))%py
  end.

(** What a worker puts on the result queue for a batch: [(True, value)],
    [(False, e)] for an exception caught by [except Exception], and
    nothing when the exception is not an [Exception] (the worker dies). *)
Definition worker (batch : list A) : option (result (list B)) :=
  match mapstar batch with
  | inr bs => Some (inr bs)
  | inl e =>
      if issubclass (exn_cls e) Exception then Some (inl e) else None
  end.

(** [MapResult]: [_value] holds one slot per job, [None] until filled,
    or the exception once a batch failed. *)
Record MapResult := {
  _success : bool;
  _value : result (list (option B));
  _chunksize : nat;
  _number_left : nat;
  _ready : bool
}.

(** [MapResult.__init__] *)
Definition MapResult_init (chunksize len : nat) : MapResult :=
  {| _success := true;
     _value := inr (repeat None len);
     _chunksize := chunksize;
     _number_left :=
       if Nat.leb chunksize 0 then 0%nat
       else (len / chunksize
             + (if Nat.eqb (len mod chunksize) 0 then 0 else 1))%nat;
     _ready := Nat.leb chunksize 0 |}.

(** [v[lo:hi] = r] on a list *)
Definition set_slice {X} (v : list X) (lo hi : nat) (r : list X) : list X :=
  firstn lo v ++ r ++ skipn (Nat.max lo hi) v.

(** [MapResult._set(i, (success, result))].  A result that arrives for
    a job already removed from the cache is dropped. *)
Definition MapResult_set (m : MapResult) (i : nat) (sr : result (list B))
  : MapResult :=
  if _ready m then m
  else
    match sr with
    | inr res =>
        let value :=
          match _value m with
          | inr v =>
              inr (set_slice v (i * _chunksize m) ((i + 1) * _chunksize m)
                             (map Some res))
          | inl e => inl e
          end in
        let left := (_number_left m - 1)%nat in
        {| _success := _success m;
           _value := value;
           _chunksize := _chunksize m;
           _number_left := left;
           _ready := Nat.eqb left 0 |}
    | inl e =>
        {| _success := false;
           _value := inl e;
           _chunksize := _chunksize m;
           _number_left := _number_left m;
           _ready := true |}
    end.

(** The result handler: batch results arrive in the order [sched]. *)
Fixpoint handle_results (tasks : list (list A)) (sched : list nat)
         (m : MapResult) : MapResult :=
  match sched with
  | [] => m
  | i :: sched' =>
      let m' :=
        match nth_error tasks i with
        | Some batch =>
            match worker batch with
            | Some sr => MapResult_set m i sr
            | None => m
            end
        | None => m
        end in
      handle_results tasks sched' m'
  end.

(** [ApplyResult.get]: wait for [_ready], then return or raise. *)
Definition get (m : MapResult) : pool_outcome (list (option B)) :=
  if _ready m then
    match _success m, _value m with
    | true, inr v => Returned v
    | false, inl e => Raised e
    | _, _ => Blocked
    end
  else Blocked.

(** The default [chunksize] of [map_async] for a pool of [processes]
    workers. *)
Definition default_chunksize (processes len : nat) : nat :=
  if Nat.eqb len 0 then 0%nat
  else
    (len / (processes * 4)
     + (if Nat.eqb (len mod (processes * 4)) 0 then 0 else 1))%nat.

(** [Pool.map(func, iterable)] *)
Definition pool_map (processes : nat) (iterable : trace A)
           (sched : list nat) : pool_outcome (list (option B)) :=
  match to_list iterable with
  | inl e => Raised e
  | inr l =>
      let chunksize := default_chunksize processes (List.length l) in
      let tasks := get_tasks (List.length l) chunksize l in
      get (handle_results tasks sched
             (MapResult_init chunksize (List.length l)))
  end.

End Map.

(** The number of batches of [n] jobs in batches of [size]. *)
Definition batch_count (n size : nat) : nat :=
  (n / size + (if Nat.eqb (n mod size) 0 then 0 else 1))%nat.

(** The slots of a [MapResult] for the results [rs] once the batches
    [done] have been stored: slot [j] belongs to batch [j / size]. *)
Definition filled {B} (rs : list B) (size : nat) (done : list nat)
  : list (option B) :=
  map (fun j => if existsb (Nat.eqb (j / size)) done
                then nth_error rs j else None)
      (seq 0 (List.length rs)).

(** The [MapResult] of an undisturbed run once the batches [done] have been
    stored. *)
Definition stored {B} (rs : list B) (size : nat) (done : list nat)
  : @MapResult B :=
  let left := (batch_count (List.length rs) size - List.length done)%nat in
  {| _success := true;
     _value := inr (filled rs size done);
     _chunksize := size;
     _number_left := left;
     _ready := Nat.eqb left 0 |}.

(** A schedule for [n] batches is complete and duplicate free. *)
Definition fair (sched : list nat) (n : nat) : Prop :=
  Permutation sched (seq 0 n).

End Pool.

Export Pool.

Module Threaded.

Section Threaded.

Context {P R : Type}.
Variable cpu_count : Z.
Variable self : @Main P R.

(** [Main.execute_threaded]: the pool is closed and joined on every
    path, which changes no result. *)
Definition execute_threaded (sched : list nat) (jobs : trace job)
  : pool_outcome (list (option R)) :=
  match threads self with
  | None => Raised (Raise AttributeError "threads")
  | Some t =>
      let threads := Z.min t cpu_count in
      if threads <? 1 then
        Raised (Raise ValueError "Number of processes must be at least 1")
      else pool_map (execute self) (Z.to_nat threads) jobs sched
  end.

(** The number of batches [Pool.map] makes of [jobs]. *)
Definition batches (jobs : trace job) : nat :=
  match threads self, to_list jobs with
  | Some t, inr l =>
      List.length
        (get_tasks (List.length l)
           (default_chunksize (Z.to_nat (Z.min t cpu_count)) (List.length l)) l)
  | _, _ => 0%nat
  end.

End Threaded.

End Threaded.

Export Threaded.

(** ** The test harness: [TestData] and [DriverTestCase] *)

Module Harness.

(** The Python values a fixture is built from. *)
Inductive pyval :=
| VNone
| VStr (s : string)
| VInt (n : Z)
| VClass (c : exn_class)
| VObj (what : string).

Definition val_truthy (v : pyval) : bool :=
  match v with
  | VNone => false
  | VStr s => truthy s
  | VInt n => negb (n =? 0)
  | VClass _ | VObj _ => true
  end.

(** [except v:] on a raised [e] *)
Definition catches (v : pyval) (e : exn) : bool :=
  match v with
  | VClass d => issubclass (exn_cls e) d
  | _ => false
  end.

(** The names bound at module level in [driver.py]. *)
Definition module_globals : list string :=
  ["__builtins__"; "__doc__"; "__file__"; "__name__"; "__package__";
   "os"; "sys"; "unittest"; "raw_input_iter"; "test_case_iter";
   "_pickle_method"; "_unpickle_method"; "TestData"; "DriverTestCase";
   "Main"].

(** The names of the [__builtin__] module of Python 2.7. *)
Definition builtins : list string :=
  ["ArithmeticError"; "AssertionError"; "AttributeError"; "BaseException";
   "BufferError"; "BytesWarning"; "DeprecationWarning"; "EOFError";
   "Ellipsis"; "EnvironmentError"; "Exception"; "False";
   "FloatingPointError"; "FutureWarning"; "GeneratorExit"; "IOError";
   "ImportError"; "ImportWarning"; "IndentationError"; "IndexError";
   "KeyError"; "KeyboardInterrupt"; "LookupError"; "MemoryError";
   "NameError"; "None"; "NotImplemented"; "NotImplementedError"; "OSError";
   "OverflowError"; "PendingDeprecationWarning"; "ReferenceError";
   "RuntimeError"; "RuntimeWarning"; "StandardError"; "StopIteration";
   "SyntaxError"; "SyntaxWarning"; "SystemError"; "SystemExit"; "TabError";
   "True"; "TypeError"; "UnboundLocalError"; "UnicodeDecodeError";
   "UnicodeEncodeError"; "UnicodeError"; "UnicodeTranslateError";
   "UnicodeWarning"; "UserWarning"; "ValueError"; "Warning";
   "ZeroDivisionError"; "__debug__"; "__doc__"; "__import__"; "__name__";
   "__package__"; "abs"; "all"; "any"; "apply"; "basestring"; "bin";
   "bool"; "buffer"; "bytearray"; "bytes"; "callable"; "chr";
   "classmethod"; "cmp"; "coerce"; "compile"; "complex"; "copyright";
   "credits"; "delattr"; "dict"; "dir"; "divmod"; "enumerate"; "eval";
   "execfile"; "exit"; "file"; "filter"; "float"; "format"; "frozenset";
   "getattr"; "globals"; "hasattr"; "hash"; "help"; "hex"; "id"; "input";
   "int"; "intern"; "isinstance"; "issubclass"; "iter"; "len"; "license";
   "list"; "locals"; "long"; "map"; "max"; "memoryview"; "min"; "next";
   "object"; "oct"; "open"; "ord"; "pow"; "print"; "property"; "quit";
   "range"; "raw_input"; "reduce"; "reload"; "repr"; "reversed"; "round";
   "set"; "setattr"; "slice"; "sorted"; "staticmethod"; "str"; "sum";
   "super"; "tuple"; "type"; "unichr"; "unicode"; "vars"; "xrange"; "zip"].

(** Name resolution inside a function: its locals, then the module
    globals, then the builtins; a name bound nowhere raises [NameError]. *)
Definition lookup (locals : list (string * pyval)) (x : string) : result pyval :=
  match find (fun b => String.eqb (fst b) x) locals with
  | Some b => ret (snd b)
  | None =>
      if existsb (String.eqb x) (module_globals ++ builtins)
      then ret (VObj x)
      else raise NameError ("global name '" ++ x ++ "' is not defined")%string
  end.

(** An instance of [TestData]; a slot never assigned is [None], and
    reading it raises [AttributeError]. *)
Record TestData := {
  test_name : option string;
  num_cases : option Z;
  input_str : option string;
  output_str : option string;
  error_class : option pyval
}.

Definition slot {A} (attr : string) (s : option A) : result A :=
  match s with
  | Some a => ret a
  | None => raise AttributeError attr
  end.

(** [str.splitlines()]: lines end at a line feed, a carriage return or
    the pair of them, and the end of the text closes a last line that is
    not empty. *)
Fixpoint splitlines (s : string) : list string :=
  match s with
  | EmptyString => []
  | String c s' =>
      if Ascii.eqb c "010"%char then EmptyString :: splitlines s'
      else if Ascii.eqb c "013"%char then
        match s' with
        | String c' s'' =>
            if Ascii.eqb c' "010"%char then EmptyString :: splitlines s''
            else EmptyString :: splitlines s'
        | EmptyString => [EmptyString]
        end
      else
        match splitlines s' with
        | [] => [String c EmptyString]
        | l :: ls => String c l :: ls
        end
  end.

Section Fixture.

(** [textwrap.dedent] *)
Variable dedent : string -> string.

(** [TestData.__init__(self, test_name, num_cases, input_str, expected)] *)
Definition TestData_init (test_name : string) (num_cases : Z)
           (input_str : string) (expected : pyval) : result TestData :=
  let locals :=
    [("self", VObj "self"); ("test_name", VStr test_name);
     ("num_cases", VInt num_cases); ("input_str", VStr input_str);
     ("expected", expected); ("dedent", VObj "dedent")] in
  let self out err :=
    {| test_name := Some test_name;
       num_cases := Some num_cases;
       input_str := Some (dedent input_str);
       output_str := out;
       error_class := err |} in
  match expected with
  | VStr _ =>
      (v <- lookup locals "output_str" ;;
       match v with
       | VStr s => ret (self (Some (dedent s)) None)
       | _ => raise TypeError "expected string or buffer"
       end)%py
  | _ =>
      (v <- lookup locals "error_class" ;;
       ret (self None (Some v)))%py
  end.

End Fixture.

(** [TestData.iter_cases] *)
Definition iter_cases (self : TestData) (lines_per_case : Z)
  : result (trace case) :=
  (s <- slot "input_str" (input_str self) ;;
   ret (test_case_iter (splitlines s) lines_per_case))%py.

(** [TestCase.assertEqual(first, second, msg)] *)
Definition assertEqual {A} (eqb : A -> A -> bool) (first second : A)
           (msg : string) : result unit :=
  if eqb first second then ret tt else raise AssertionError msg.

Section Run.

Context {P R : Type}.
Variable driver : @Main P R.
Variable data : TestData.

Definition call_execute_all (jobs : trace job) : result (list R) :=
  (f <- slot "execute_all" (execute_all driver) ;; f jobs)%py.

(** [DriverTestCase._run]: [inr tt] when the test method returns (the
    test passes), [inl e] when [e] leaves it (the test fails). *)
Definition _run : result unit :=
  (cases <- iter_cases data (lines_per_case driver) ;;
   ec <- slot "error_class" (error_class data) ;;
   if val_truthy ec then
     let body : result unit :=
       call_execute_all (enumerate cases 1) ;;
       raise AssertionError "Expected execution failure" in
     match body with
     | inl e => if catches ec e then ret tt else inl e
     | inr u => ret u
     end
   else
     results <- call_execute_all (enumerate cases 1) ;;
     n <- slot "num_cases" (num_cases data) ;;
     assertEqual Z.eqb (Z.of_nat (List.length results)) n
                 "Incorrect number of results" ;;
     let output :=
       fold_left (fun out ir => print_result driver (fst ir) (snd ir) out)
                 (enumerate_list results 1) EmptyString in
     expected <- slot "output_str" (output_str data) ;;
     assertEqual String.eqb output expected "Incorrect output")%py.

End Run.

End Harness.

Export Harness.

(** ** Notions the statements below are phrased with *)

Module Notions.

(** The data lines of an input: the lines after the count line and before
    the first blank line, or all of them when there is no blank line. *)
Fixpoint data_lines (seq : list string) : list string :=
  match seq with
  | [] => []
  | line :: seq' => if truthy line then line :: data_lines seq' else []
  end.

(** What follows the data lines: nothing, or a blank line and the rest. *)
Fixpoint after_data (seq : list string) : list string :=
  match seq with
  | [] => []
  | line :: seq' => if truthy line then after_data seq' else seq
  end.

(** The case made of the group of lines [g] under [lines_per_case]. *)
Definition as_case (lines_per_case : Z) (g : list string) : case :=
  if lines_per_case =? 1 then CaseLine (hd EmptyString g) else CaseGroup g.

(** The lines a case is made of. *)
Definition case_lines (c : case) : list string :=
  match c with
  | CaseLine line => [line]
  | CaseGroup lines => lines
  end.

(** The variable [next] when the lines [buf] are held back. *)
Definition next_of (buf : list string) : option (list string) :=
  match buf with
  | [] => None
  | _ => Some buf
  end.

(** The value of [ctr] when [test_case_iter] finishes, by the same
    control flow as [loop]. *)
Fixpoint final_ctr (expected lines_per_case ctr : Z) (seq : list string) : Z :=
  match seq with
  | [] => ctr
  | line :: seq' =>
      if truthy line then
        if (expected <? 0) || (ctr / lines_per_case <? expected)
        then final_ctr expected lines_per_case (ctr + 1) seq'
        else ctr
      else ctr
  end.

(** Number of data lines [test_case_iter] has consumed when it finishes. *)
Definition lines_consumed (seq : list string) (lines_per_case : Z) : Z :=
  match seq with
  | first :: seq' =>
      match int first with
      | inr expected => final_ctr expected lines_per_case 0 seq'
      | inl _ => 0
      end
  | [] => 0
  end.

Definition LF : string := String "010"%char EmptyString.

(** [text ls]: the lines [ls], each closed by a line feed. *)
Definition text (ls : list string) : string :=
  fold_right (fun l acc => (l ++ LF ++ acc)%string) EmptyString ls.

End Notions.

Export Notions.

(** ** A concrete subclass of [Main] *)

Module Echo.

Definition hex_digit (n : nat) : ascii :=
  ascii_of_nat (if Nat.ltb n 10 then 48 + n else 87 + n).

Fixpoint mem (c : ascii) (s : string) : bool :=
  match s with
  | EmptyString => false
  | String c' s' => (Ascii.eqb c c' || mem c s')%bool
  end.

Fixpoint repr_chars (quote : ascii) (s : string) : string :=
  match s with
  | EmptyString => EmptyString
  | String c s' =>
      let n := nat_of_ascii c in
      let rest := repr_chars quote s' in
      if (Ascii.eqb c quote || Ascii.eqb c "092"%char)%bool
      then String "092"%char (String c rest)
      else if Nat.eqb n 9 then String "092"%char (String "t"%char rest)
      else if Nat.eqb n 10 then String "092"%char (String "n"%char rest)
      else if Nat.eqb n 13 then String "092"%char (String "r"%char rest)
      else if (Nat.ltb n 32 || Nat.leb 127 n)%bool
      then String "092"%char (String "x"%char
             (String (hex_digit (n / 16)) (String (hex_digit (n mod 16)) rest)))
      else String c rest
  end.

(** [repr] of a [str] *)
Definition repr_str (s : string) : string :=
  let quote :=
    if (mem "039"%char s && negb (mem "034"%char s))%bool
    then "034"%char else "039"%char in
  String quote (repr_chars quote s ++ String quote EmptyString)%string.

(** [str] of a case: a [str] is its own rendering, a list renders the
    [repr] of its elements. *)
Definition str_case (c : case) : string :=
  match c with
  | CaseLine s => s
  | CaseGroup l =>
      ("[" ++ String.concat ", " (map repr_str l) ++ "]")%string
  end.

(** The subclass
    [class Echo(Main): execute_all = Main.execute_serially;
     solve = lambda self, case_num, case: case]. *)
Definition echo_base (lines_per_case : Z) : @Main case case :=
  {| name := "echo";
     lines_per_case := lines_per_case;
     threads := None;
     parse_input := Main_parse_input;
     solve := fun _ c => ret c;
     str_ := str_case;
     execute_all := None |}.

Definition echo (lines_per_case : Z) (threads : option Z) : @Main case case :=
  {| name := "echo";
     lines_per_case := lines_per_case;
     threads := threads;
     parse_input := Main_parse_input;
     solve := fun _ c => ret c;
     str_ := str_case;
     execute_all := Some (execute_serially (echo_base lines_per_case)) |}.

End Echo.

Export Echo.

(** ** The two sources of lines of [Main.run] *)

Module Sources.

Section Interactive.

(** What [raw_input()] raises when standard input is exhausted
    ([EOFError]). *)
Variable EOFError : exn.

(** [raw_input_iter()], standard input holding the lines [stdin]: each
    call of [raw_input()] returns the next line without its line end. *)
Fixpoint raw_input_iter (stdin : list string) : trace string :=
  match stdin with
  | [] => TRaise EOFError
  | inp :: stdin' =>
      if truthy inp then TYield inp (raw_input_iter stdin') else TStop
  end.

End Interactive.

(** The lines [fileinput.input(infile, mode='rU')] iterates over, for a
    file holding [content]: every line keeps its line end, which the
    universal-newline mode turns into a line feed. *)
Fixpoint file_lines (content : string) : list string :=
  match content with
  | EmptyString => []
  | String c s' =>
      if Ascii.eqb c "010"%char then LF :: file_lines s'
      else if Ascii.eqb c "013"%char then
        match s' with
        | String c' s'' =>
            if Ascii.eqb c' "010"%char then LF :: file_lines s''
            else LF :: file_lines s'
        | EmptyString => [LF]
        end
      else
        match file_lines s' with
        | [] => [String c EmptyString]
        | l :: ls => String c l :: ls
        end
  end.

(** The body of [for line in seq:] of [test_case_iter] when [seq] is an
    iterator whose [next()] may raise, such as [raw_input_iter()]. *)
Fixpoint loop_from (expected lines_per_case ctr : Z)
         (next : option (list string)) (seq : trace string) : trace case :=
  match seq with
  | TStop => TStop
  | TRaise e => TRaise e
  | TYield line seq' =>
      let cases := ctr / lines_per_case in
      if truthy line then
        if (expected <? 0) || (cases <? expected) then
          let line := strip line in
          let ctr := ctr + 1 in
          if lines_per_case =? 1 then
            TYield (CaseLine line)
                   (loop_from expected lines_per_case ctr next seq')
          else
            let next :=
              match next with
              | Some (x :: l) => (x :: l) ++ [line]
              | _ => [line]
              end in
            if ctr mod lines_per_case =? 0 then
              TYield (CaseGroup next)
                     (loop_from expected lines_per_case ctr None seq')
            else
              loop_from expected lines_per_case ctr (Some next) seq'
        else TRaise too_many
      else
        if (expected <? 0) || (cases =? expected) then TStop
        else TRaise too_few
  end.

(** [test_case_iter(seq, lines_per_case)] for such an iterator. *)
Definition test_case_iter_from (seq : trace string) (lines_per_case : Z)
  : trace case :=
  if lines_per_case <? 1 then
    TRaise (Raise AssertionError "lines_per_case must be >= 1")
  else
    match seq with
    | TStop => TStop
    | TRaise e => TRaise e
    | TYield first seq' =>
        match int first with
        | inl e => TRaise e
        | inr expected => loop_from expected lines_per_case 0 None seq'
        end
    end.

(** A text without line break. *)
Fixpoint plain (s : string) : bool :=
  match s with
  | EmptyString => true
  | String c s' =>
      (negb (Ascii.eqb c "010"%char) && negb (Ascii.eqb c "013"%char)
       && plain s')%bool
  end.

End Sources.

Export Sources.

(** ** Printing the results *)

Module Printing.

Section Printing.

Context {P R : Type}.
Variable self : @Main P R.

(** The loop [for i, r in enumerate(results, 1): self.print_result(i, r,
    outfile)] of [Main.run] and of [DriverTestCase._run], from the text
    [outfile] written so far. *)
Definition print_results (results : list R) (outfile : string) : string :=
  fold_left (fun out ir => print_result self (fst ir) (snd ir) out)
            (enumerate_list results 1) outfile.

(** The line [print_result] writes for a result, without its line end. *)
Definition result_line (ir : Z * R) : string :=
  ("Case #" ++ NilZero.string_of_int (Z.to_int (fst ir))
            ++ ": " ++ str_ self (snd ir))%string.

End Printing.

End Printing.

Export Printing.

(** ** Pickling instance methods: [_pickle_method], [_unpickle_method] *)

Module Pickle.

(** A function object: its [__name__] and its identity. *)
Record function := { func_name_ : string; func_id : nat }.

(** A class: its name, its [__dict__] restricted to the functions it
    defines, and the classes that follow it in its [__mro__]. *)
#[warnings="-register-all"]
Inductive class :=
| Class (name : string) (dict : list (string * function)) (bases : list class).

Definition cls_dict (c : class) : list (string * function) :=
  match c with Class _ d _ => d end.

(** [cls.mro()] *)
Definition cls_mro (c : class) : list class :=
  match c with Class _ _ bases => c :: bases end.

(** [cls.__dict__[key]]; [None] stands for [KeyError]. *)
Fixpoint dict_get (d : list (string * function)) (key : string)
  : option function :=
  match d with
  | [] => None
  | (k, f) :: d' => if String.eqb k key then Some f else dict_get d' key
  end.

Section Methods.

(** The instances methods are bound to. *)
Context {Obj : Type}.

(** A bound method. *)
Record method := {
  im_func : function;
  im_self : Obj;
  im_class : class
}.

(** What [_unpickle_method] can raise: [func] is read although no turn of
    the loop has assigned it. *)
Inductive unpickle_error :=
| UnboundLocalError (var : string).

(** [_pickle_method(method)]: the arguments its result hands to
    [_unpickle_method]. *)
Definition _pickle_method (m : method) : string * Obj * class :=
  let func_name := func_name_ (im_func m) in
  let obj := im_self m in
  let cls := im_class m in
  (func_name, obj, cls).

(** The loop [for cls in cls.mro():] of [_unpickle_method]: the first
    class whose [__dict__] holds [func_name], with the function found. *)
Fixpoint find_func (func_name : string) (mro : list class)
  : option (function * class) :=
  match mro with
  | [] => None
  | cls :: mro' =>
      match dict_get (cls_dict cls) func_name with
      | Some func => Some (func, cls)
      | None => find_func func_name mro'
      end
  end.

(** [_unpickle_method(func_name, obj, cls)]; [func.__get__(obj, cls)]
    binds the function found to [obj], with the class it was found in. *)
Definition _unpickle_method (args : string * Obj * class)
  : unpickle_error + method :=
  let '(func_name, obj, cls) := args in
  match find_func func_name (cls_mro cls) with
  | Some (func, cls) =>
      inr {| im_func := func; im_self := obj; im_class := cls |}
  | None => inl (UnboundLocalError "func")
  end.

End Methods.

End Pickle.

Export Pickle.

(** * Properties *)

(** Settling a comparison whose outcome follows from the context. *)
Ltac test_false t :=
  replace t with false
    by (symmetry;
        first [apply Z.ltb_ge | apply Z.eqb_neq | apply Nat.ltb_ge
              | apply Nat.leb_gt | apply Nat.eqb_neq];
        first [assumption | lia]).

Ltac test_true t :=
  replace t with true
    by (symmetry;
        first [apply Z.ltb_lt | apply Z.eqb_eq | apply Nat.ltb_lt
              | apply Nat.leb_le | apply Nat.eqb_eq];
        first [assumption | lia]).

(** ** Strings *)

Section StringFacts.

Lemma truthy_true_iff (s : string) : truthy s = true <-> s <> EmptyString.
Proof. destruct s; simpl; split; congruence. Qed.

Lemma rstrip_all_space (s : string) :
  all_space s = true -> rstrip s = EmptyString.
Proof.
  induction s as [|c s IH]; simpl; intros H; [reflexivity|].
  apply andb_true_iff in H as [Hc Hs].
  rewrite (IH Hs), Hc. reflexivity.
Qed.

Lemma lstrip_all_space (s : string) :
  all_space s = true -> lstrip s = EmptyString.
Proof.
  induction s as [|c s IH]; simpl; intros H; [reflexivity|].
  apply andb_true_iff in H as [Hc Hs].
  rewrite Hc. auto.
Qed.

Lemma strip_all_space (s : string) :
  all_space s = true -> strip s = EmptyString.
Proof.
  intros H. unfold strip. rewrite (lstrip_all_space s H). reflexivity.
Qed.

(** [lstrip] removes a prefix made of whitespace only. *)
Lemma lstrip_split (s : string) :
  exists a, s = (a ++ lstrip s)%string /\ all_space a = true.
Proof.
  induction s as [|c s [a [E Ha]]]; simpl.
  - exists EmptyString. split; reflexivity.
  - destruct (isspace c) eqn:Hc.
    + exists (String c a). simpl. rewrite Hc, Ha, <- E. split; reflexivity.
    + exists EmptyString. split; reflexivity.
Qed.

(** [rstrip] removes a suffix made of whitespace only. *)
Lemma rstrip_split (s : string) :
  exists b, s = (rstrip s ++ b)%string /\ all_space b = true.
Proof.
  induction s as [|c s [b [E Hb]]]; simpl.
  - exists EmptyString. split; reflexivity.
  - destruct (rstrip s) as [|c' r] eqn:Hr; simpl in E.
    + destruct (isspace c) eqn:Hc.
      * exists (String c b). simpl. rewrite Hc, Hb, <- E.
        split; reflexivity.
      * exists b. simpl. split; [congruence|assumption].
    + exists b. simpl. split; [congruence|assumption].
Qed.

(** What [lstrip] returns does not start with whitespace. *)
Lemma lstrip_head (s : string) :
  match lstrip s with
  | EmptyString => True
  | String c _ => isspace c = false
  end.
Proof.
  induction s as [|c s IH]; simpl; [exact I|].
  destruct (isspace c) eqn:Hc; [exact IH|exact Hc].
Qed.

(** [rstrip] keeps the first byte of a text it does not empty. *)
Lemma rstrip_head (s : string) :
  match rstrip s, s with
  | String c _, String c' _ => c = c'
  | String _ _, EmptyString => False
  | EmptyString, _ => True
  end.
Proof.
  destruct s as [|c s]; simpl; [exact I|].
  destruct (rstrip s); [destruct (isspace c)|]; simpl; auto.
Qed.

(** What [rstrip] returns does not end with whitespace. *)
Lemma rstrip_last (s : string) :
  match last_byte (rstrip s) with
  | Some c => isspace c = false
  | None => True
  end.
Proof.
  induction s as [|c s IH]; simpl; [exact I|].
  destruct (rstrip s) as [|c' r] eqn:Hr.
  - destruct (isspace c) eqn:Hc; simpl; auto.
  - change (last_byte (String c (String c' r))) with (last_byte (String c' r)).
    exact IH.
Qed.

(** [strip] cuts whitespace at both ends and keeps what lies between:
    the result neither starts nor ends with whitespace. *)
Lemma strip_spec (s : string) :
  exists a b,
    s = (a ++ strip s ++ b)%string
    /\ all_space a = true /\ all_space b = true
    /\ match strip s with
       | EmptyString => True
       | String c _ => isspace c = false
       end
    /\ match last_byte (strip s) with
       | Some c => isspace c = false
       | None => True
       end.
Proof.
  destruct (lstrip_split s) as [a [Ea Ha]].
  destruct (rstrip_split (lstrip s)) as [b [Eb Hb]].
  exists a, b. unfold strip. repeat split; try assumption.
  - rewrite <- Eb. exact Ea.
  - pose proof (rstrip_head (lstrip s)) as H1.
    pose proof (lstrip_head s) as H2.
    destruct (rstrip (lstrip s)); [exact I|].
    destruct (lstrip s); [contradiction|]. subst. exact H2.
  - apply rstrip_last.
Qed.

End StringFacts.

(** ** The segmenter loop *)

Section LoopFacts.

Variables expected lines_per_case : Z.
Hypothesis lines_per_case_pos : 1 <= lines_per_case.

Local Abbreviation loop' := (loop expected lines_per_case).
Local Abbreviation len l := (Z.of_nat (List.length l)).

Lemma yielded_prepend {A} (l : list A) (t : trace A) :
  yielded (prepend l t) = l ++ yielded t.
Proof. induction l; simpl; congruence. Qed.

Lemma ending_prepend {A} (l : list A) (t : trace A) :
  ending (prepend l t) = ending t.
Proof. induction l; simpl; congruence. Qed.

Lemma data_lines_truthy (seq : list string) :
  Forall (fun l => truthy l = true) (data_lines seq).
Proof.
  induction seq as [|l seq IH]; simpl; [constructor|].
  destruct (truthy l) eqn:E; constructor; assumption.
Qed.

Lemma data_lines_split (seq : list string) :
  seq = data_lines seq ++ after_data seq
  /\ match after_data seq with
     | [] => True
     | l :: _ => truthy l = false
     end.
Proof.
  induction seq as [|l seq [IH1 IH2]]; simpl; [split; auto|].
  destruct (truthy l) eqn:E; simpl; split; auto. congruence.
Qed.

Lemma data_lines_app (pre rest : list string) :
  Forall (fun l => truthy l = true) pre ->
  data_lines (pre ++ rest) = pre ++ data_lines rest.
Proof.
  induction 1 as [|l pre Hl _ IH]; simpl; [reflexivity|].
  rewrite Hl, IH. reflexivity.
Qed.

Lemma mod_succ (ctr m : Z) :
  0 <= ctr -> 1 <= m ->
  (if (ctr + 1) mod m =? 0
   then ctr mod m + 1 = m
   else ctr mod m + 1 = (ctr + 1) mod m).
Proof.
  intros Hc Hm.
  assert (Hr : 0 <= ctr mod m < m) by (apply Z.mod_pos_bound; lia).
  rewrite <- (Zplus_mod_idemp_l ctr 1 m).
  destruct (Z.eq_dec (ctr mod m + 1) m) as [E|E].
  - rewrite E, Z.mod_same by lia. reflexivity.
  - rewrite Z.mod_small by lia.
    destruct (ctr mod m + 1 =? 0) eqn:E0; [apply Z.eqb_eq in E0; lia|].
    reflexivity.
Qed.

(** The list [next] after a line was appended to it. *)
Lemma next_append (buf : list string) (line : string) :
  match next_of buf with
  | Some (x :: l) => (x :: l) ++ [line]
  | _ => [line]
  end = buf ++ [line].
Proof. destruct buf; reflexivity. Qed.

Lemma next_of_snoc (buf : list string) (line : string) :
  Some (buf ++ [line]) = next_of (buf ++ [line]).
Proof. destruct buf; reflexivity. Qed.

(** One accepted line, for one line per case. *)
Lemma loop_step_single (ctr : Z) (line : string) (seq : list string) :
  lines_per_case = 1 ->
  truthy line = true ->
  expected < 0 \/ ctr < expected ->
  loop' ctr None (line :: seq)
  = TYield (CaseLine (strip line)) (loop' (ctr + 1) None seq).
Proof.
  intros -> Ht Hc. simpl. rewrite Ht, Z.div_1_r.
  replace ((expected <? 0) || (ctr <? expected)) with true; [reflexivity|].
  symmetry. apply orb_true_iff.
  destruct Hc; [left; apply Z.ltb_lt|right; apply Z.ltb_lt]; assumption.
Qed.

(** A run of accepted lines: the groups completed on the way are yielded
    in order, and the loop goes on with the lines held back. *)
Lemma loop_accept (pre : list string) :
  forall (ctr : Z) (buf rest : list string),
    0 <= ctr ->
    len buf = ctr mod lines_per_case ->
    Forall (fun l => truthy l = true) pre ->
    expected < 0 \/ ctr + len pre <= expected * lines_per_case ->
    exists gs buf',
      loop' ctr (next_of buf) (pre ++ rest)
      = prepend (map (as_case lines_per_case) gs)
                (loop' (ctr + len pre) (next_of buf') rest)
      /\ buf ++ map strip pre = concat gs ++ buf'
      /\ Forall (fun g => len g = lines_per_case) gs
      /\ len buf' = (ctr + len pre) mod lines_per_case.
Proof.
  induction pre as [|line pre IH]; intros ctr buf rest Hctr Hbuf Hpre Hroom.
  - exists [], buf. simpl. rewrite Z.add_0_r, app_nil_r. auto.
  - inversion Hpre as [|? ? Hline Hpre']; subst.
    assert (Hok : (expected <? 0) || (ctr / lines_per_case <? expected) = true).
    { apply orb_true_iff. destruct Hroom as [Hneg|Hroom].
      - left. apply Z.ltb_lt. exact Hneg.
      - right. apply Z.ltb_lt. apply Z.div_lt_upper_bound; [lia|].
        simpl List.length in Hroom. nia. }
    assert (Hroom' : expected < 0
                     \/ ctr + 1 + len pre <= expected * lines_per_case).
    { destruct Hroom; [left; assumption|right].
      simpl List.length in *. lia. }
    assert (Hlen : ctr + len (line :: pre) = ctr + 1 + len pre).
    { simpl List.length. lia. }
    rewrite Hlen. cbn [app loop]. rewrite Hline, Hok.
    destruct (lines_per_case =? 1) eqn:Hone.
    + apply Z.eqb_eq in Hone.
      assert (buf = []) as ->.
      { rewrite Hone, Z.mod_1_r in Hbuf. destruct buf; [reflexivity|].
        simpl List.length in Hbuf. lia. }
      destruct (IH (ctr + 1) [] rest) as (gs & buf' & E & Hcat & Hgs & Hb');
        try assumption; try lia.
      { rewrite Hone, Z.mod_1_r. reflexivity. }
      exists ([strip line] :: gs), buf'. repeat split.
      * cbn [map prepend]. unfold as_case at 1.
        test_true (lines_per_case =? 1).
        cbn [hd]. f_equal. exact E.
      * simpl in *. rewrite Hcat. reflexivity.
      * constructor; [simpl; lia|assumption].
      * exact Hb'.
    + apply Z.eqb_neq in Hone. rewrite next_append.
      assert (Hsnoc : len (buf ++ [strip line]) = ctr mod lines_per_case + 1).
      { rewrite length_app. simpl List.length. lia. }
      pose proof (mod_succ ctr lines_per_case Hctr lines_per_case_pos) as Hmod.
      destruct ((ctr + 1) mod lines_per_case =? 0) eqn:Hfull.
      * apply Z.eqb_eq in Hfull.
        destruct (IH (ctr + 1) [] rest) as (gs & buf' & E & Hcat & Hgs & Hb');
          try assumption; try lia.
        { simpl. lia. }
        exists ((buf ++ [strip line]) :: gs), buf'. repeat split.
        -- cbn [map prepend]. unfold as_case at 1.
           test_false (lines_per_case =? 1).
           f_equal. exact E.
        -- cbn [concat app] in *. rewrite <- app_assoc, <- Hcat.
           rewrite <- app_assoc. reflexivity.
        -- constructor; [|assumption]. rewrite Hsnoc. exact Hmod.
        -- exact Hb'.
      * apply Z.eqb_neq in Hfull. rewrite next_of_snoc.
        destruct (IH (ctr + 1) (buf ++ [strip line]) rest)
          as (gs & buf' & E & Hcat & Hgs & Hb'); try assumption; try lia.
        exists gs, buf'. repeat split; try assumption.
        rewrite <- Hcat, <- app_assoc. reflexivity.
Qed.

(** How the loop ends once the accepted lines are behind it. *)
Lemma loop_nil (ctr : Z) (next : option (list string)) :
  loop' ctr next [] = TStop.
Proof. reflexivity. Qed.

Lemma loop_blank (ctr : Z) (next : option (list string))
      (line : string) (rest : list string) :
  truthy line = false ->
  loop' ctr next (line :: rest)
  = if (expected <? 0) || (ctr / lines_per_case =? expected)
    then TStop else TRaise too_few.
Proof. intros H. simpl. rewrite H. reflexivity. Qed.

Lemma loop_excess (ctr : Z) (next : option (list string))
      (line : string) (rest : list string) :
  truthy line = true ->
  0 <= expected <= ctr / lines_per_case ->
  loop' ctr next (line :: rest) = TRaise too_many.
Proof.
  intros H Hc. simpl. rewrite H.
  test_false (expected <? 0).
  test_false (ctr / lines_per_case <? expected).
  reflexivity.
Qed.

(** [final_ctr] over a run of accepted lines. *)
Lemma final_ctr_accept (pre : list string) :
  forall (ctr : Z) (rest : list string),
    Forall (fun l => truthy l = true) pre ->
    expected < 0 \/ ctr + len pre <= expected * lines_per_case ->
    final_ctr expected lines_per_case ctr (pre ++ rest)
    = final_ctr expected lines_per_case (ctr + len pre) rest.
Proof.
  induction pre as [|line pre IH]; intros ctr rest Hpre Hroom.
  - simpl. rewrite Z.add_0_r. reflexivity.
  - inversion Hpre as [|? ? Hline Hpre']; subst.
    simpl app. simpl final_ctr. rewrite Hline.
    replace ((expected <? 0) || (ctr / lines_per_case <? expected)) with true.
    + rewrite IH; try assumption.
      * f_equal. simpl List.length. lia.
      * destruct Hroom; [left; assumption|right].
        simpl List.length in *. lia.
    + symmetry. apply orb_true_iff. destruct Hroom as [Hneg|Hroom].
      * left. apply Z.ltb_lt. exact Hneg.
      * right. apply Z.ltb_lt. apply Z.div_lt_upper_bound; [lia|].
        simpl List.length in Hroom. nia.
Qed.

End LoopFacts.

(** ** The segmenter on whole inputs *)

Section SegmenterFacts.

Variables (first : string) (k m : Z).
Hypothesis m_pos : 1 <= m.
Hypothesis first_count : int first = inr k.

Local Abbreviation len l := (Z.of_nat (List.length l)).
Local Abbreviation nonblank := (fun l : string => truthy l = true).
Local Abbreviation full := (fun g : list string => len g = m).

Lemma test_case_iter_loop (seq : list string) :
  test_case_iter (first :: seq) m = loop k m 0 None seq.
Proof.
  unfold test_case_iter. rewrite first_count.
  test_false (m <? 1).
  reflexivity.
Qed.

Lemma concat_full_length (gs : list (list string)) :
  Forall full gs -> len (concat gs) = len gs * m.
Proof.
  induction 1 as [|g gs Hg _ IH]; [reflexivity|].
  cbn [concat List.length].
  rewrite length_app, Nat2Z.inj_add, Nat2Z.inj_succ, IH, Hg. ring.
Qed.

Lemma length_zero_nil {A} (l : list A) : len l = 0 -> l = [].
Proof. destruct l; simpl; [reflexivity|lia]. Qed.

(** The cases of complete groups, flattened, are the lines of the groups. *)
Lemma case_lines_as_case (gs : list (list string)) :
  Forall full gs -> flat_map case_lines (map (as_case m) gs) = concat gs.
Proof.
  induction 1 as [|g gs Hg _ IH]; simpl; [reflexivity|].
  rewrite IH. f_equal. unfold as_case.
  destruct (m =? 1) eqn:E; [|reflexivity].
  apply Z.eqb_eq in E. rewrite E in Hg.
  destruct g as [|x [|y g]]; simpl in *; try lia. reflexivity.
Qed.

(** A run of data lines that the count allows, from the start of the
    iteration. *)
Lemma accept_from_start (pre rest : list string) :
  Forall nonblank pre ->
  k < 0 \/ len pre <= k * m ->
  exists gs buf',
    test_case_iter (first :: pre ++ rest) m
    = prepend (map (as_case m) gs) (loop k m (len pre) (next_of buf') rest)
    /\ map strip pre = concat gs ++ buf'
    /\ Forall full gs
    /\ len buf' = len pre mod m.
Proof.
  intros Hpre Hroom. rewrite test_case_iter_loop.
  destruct (loop_accept k m m_pos pre 0 [] rest) as (gs & buf' & E & Hcat & Hgs & Hb);
    try assumption; try lia.
  { rewrite Z.mod_0_l by lia. reflexivity. }
  exists gs, buf'. repeat split; assumption.
Qed.

(** With a negative count the iteration takes every data line and ends
    normally; at most [m - 1] trailing lines are in no case. *)
Lemma unlimited_run (seq : list string) :
  k < 0 ->
  exists gs tail,
    test_case_iter (first :: seq) m = prepend (map (as_case m) gs) TStop
    /\ Forall full gs
    /\ map strip (data_lines seq) = concat gs ++ tail
    /\ len tail = len (data_lines seq) mod m.
Proof.
  intros Hk. destruct (data_lines_split seq) as [Hsplit Hafter].
  destruct (accept_from_start (data_lines seq) (after_data seq))
    as (gs & buf' & E & Hcat & Hgs & Hb).
  { apply data_lines_truthy. }
  { left. exact Hk. }
  rewrite <- Hsplit in E. exists gs, buf'. repeat split; try assumption.
  rewrite E. f_equal. destruct (after_data seq) as [|l rest]; [reflexivity|].
  rewrite loop_blank by assumption.
  test_true (k <? 0).
  reflexivity.
Qed.

(** Whatever the count, the cases are the complete groups of a prefix of
    the data lines, stripped and in input order. *)
Lemma segmenter_groups (seq : list string) :
  exists gs tail fin,
    test_case_iter (first :: seq) m = prepend (map (as_case m) gs) fin
    /\ yielded fin = []
    /\ Forall full gs
    /\ map strip (data_lines seq) = concat gs ++ tail.
Proof.
  destruct (Z_lt_le_dec k 0) as [Hk|Hk].
  { destruct (unlimited_run seq Hk) as (gs & tail & E & Hgs & Hcat & _).
    exists gs, tail, TStop. auto. }
  destruct (data_lines_split seq) as [Hsplit Hafter].
  destruct (Z_le_gt_dec (len (data_lines seq)) (k * m)) as [Hfit|Hover].
  - destruct (accept_from_start (data_lines seq) (after_data seq))
      as (gs & buf' & E & Hcat & Hgs & Hb).
    { apply data_lines_truthy. }
    { right. exact Hfit. }
    rewrite <- Hsplit in E.
    exists gs, buf', (loop k m (len (data_lines seq)) (next_of buf') (after_data seq)).
    repeat split; try assumption.
    destruct (after_data seq) as [|l rest]; [reflexivity|].
    rewrite loop_blank by assumption.
    destruct ((k <? 0) || (len (data_lines seq) / m =? k)); reflexivity.
  - set (n := Z.to_nat (k * m)).
    assert (Hn : (n < List.length (data_lines seq))%nat) by (unfold n; nia).
    pose proof (firstn_skipn n (data_lines seq)) as Hcut.
    destruct (skipn n (data_lines seq)) as [|l more] eqn:Hmore.
    { apply (f_equal (@List.length string)) in Hcut.
      rewrite length_app, length_firstn in Hcut. simpl in Hcut. lia. }
    assert (Hall : Forall nonblank (firstn n (data_lines seq) ++ l :: more)).
    { rewrite Hcut. apply data_lines_truthy. }
    apply Forall_app in Hall as [Hpre Hl]. inversion Hl as [|? ? Hl1 _]; subst.
    assert (Hlen : len (firstn n (data_lines seq)) = k * m).
    { rewrite length_firstn. unfold n. nia. }
    destruct (accept_from_start (firstn n (data_lines seq))
                                (l :: more ++ after_data seq))
      as (gs & buf' & E & Hcat & Hgs & Hb); [assumption|right; lia|].
    exists gs, (buf' ++ map strip (l :: more)), (TRaise too_many).
    repeat split; try assumption.
    + rewrite Hsplit at 1. rewrite <- Hcut at 1. rewrite <- app_assoc.
      cbn [app]. rewrite E. f_equal.
      apply loop_excess; [assumption|].
      rewrite Hlen, Z.div_mul by lia. lia.
    + rewrite <- Hcut at 1. rewrite map_app, Hcat, <- app_assoc. reflexivity.
Qed.

End SegmenterFacts.

(** The non-blank line met when [k >= 0] cases are complete. *)
Lemma excess_line_raises
      (first : string) (k m : Z) (pre : list string) (line : string)
      (rest : list string) :
  1 <= m ->
  int first = inr k ->
  0 <= k ->
  Forall (fun l => truthy l = true) pre ->
  Z.of_nat (length pre) = k * m ->
  truthy line = true ->
  exists gs,
    test_case_iter (first :: pre ++ line :: rest) m
    = prepend (map (as_case m) gs) (TRaise too_many)
    /\ Z.of_nat (length gs) = k
    /\ Forall (fun g => Z.of_nat (length g) = m) gs
    /\ concat gs = map strip pre.
Proof.
  intros Hm Hfirst Hk Hpre Hlen Hline.
  destruct (accept_from_start first k m Hm Hfirst pre (line :: rest))
    as (gs & buf' & E & Hcat & Hgs & Hb); [assumption|right; lia|].
  rewrite Hlen, Z.mod_mul in Hb by lia.
  apply length_zero_nil in Hb. subst buf'. rewrite app_nil_r in Hcat.
  exists gs. repeat split; try assumption; try congruence.
  - rewrite E. f_equal. apply loop_excess; [assumption|].
    rewrite Hlen, Z.div_mul by lia. lia.
  - apply (f_equal (fun l => Z.of_nat (length l))) in Hcat.
    rewrite length_map, (concat_full_length m gs Hgs) in Hcat. nia.
Qed.

(** With one line per case the cases are the lines themselves. *)
Lemma single_line_cases (gs : list (list string)) :
  Forall (fun g => Z.of_nat (length g) = 1) gs ->
  map (as_case 1) gs = map CaseLine (concat gs).
Proof.
  induction 1 as [|g gs Hg _ IH]; [reflexivity|].
  destruct g as [|x [|y g]]; simpl in Hg; try lia.
  simpl. rewrite <- IH. reflexivity.
Qed.

(** A blank line after exactly the declared [k >= 0] cases ends the
    iteration normally, [k] cases having been yielded. *)
Lemma declared_count_met
      (first : string) (k m : Z) (d : list string) (blank : string)
      (rest : list string) :
  1 <= m ->
  int first = inr k ->
  0 <= k ->
  Forall (fun l => truthy l = true) d ->
  Z.of_nat (length d) = k * m ->
  truthy blank = false ->
  exists gs,
    test_case_iter (first :: d ++ blank :: rest) m
    = prepend (map (as_case m) gs) TStop
    /\ Z.of_nat (length gs) = k
    /\ concat gs = map strip d.
Proof.
  intros Hm Hfirst Hk Hd Hlen Hblank.
  destruct (accept_from_start first k m Hm Hfirst d (blank :: rest))
    as (gs & buf' & E & Hcat & Hgs & Hb); [assumption|right; lia|].
  rewrite Hlen, Z.mod_mul in Hb by lia.
  apply length_zero_nil in Hb. subst buf'. rewrite app_nil_r in Hcat.
  exists gs. repeat split; try congruence.
  - rewrite E, loop_blank by assumption. rewrite Hlen, Z.div_mul by lia.
    rewrite Z.eqb_refl, orb_true_r. reflexivity.
  - apply (f_equal (fun l => Z.of_nat (length l))) in Hcat.
    rewrite length_map, (concat_full_length m gs Hgs) in Hcat. nia.
Qed.

(** ** Claims about the segmenter *)

(** The input ["1\n\n"]: one case declared, a blank line at once. *)
Example blank_line_too_few :
  test_case_iter (splitlines (text ["1"; EmptyString])) 1 = TRaise too_few.
Proof. reflexivity. Qed.

(** Two lines per case, the declared two cases, then a blank line. *)
Example pairs_then_blank :
  test_case_iter ["2"; "a"; " b "; "c"; "d"; EmptyString; "ignored"] 2
  = TYield (CaseGroup ["a"; "b"]) (TYield (CaseGroup ["c"; "d"]) TStop).
Proof. reflexivity. Qed.

(** C1 (the code departs from it).  The count check of a non-negative
    declared count is made at a blank line only.  When the lines run out
    with fewer than [k] complete cases and no blank line, the iteration
    ends normally after fewer than [k] cases, and no error is raised; the
    same lines followed by a blank line raise "Too few inputs". *)
Theorem exhaustion_skips_count_check
        (first : string) (k m : Z) (d : list string) :
  1 <= m ->
  int first = inr k ->
  0 <= k ->
  Forall (fun l => truthy l = true) d ->
  Z.of_nat (length d) < k * m ->
  (exists gs,
      test_case_iter (first :: d) m = prepend (map (as_case m) gs) TStop
      /\ Z.of_nat (length gs) < k)
  /\ (forall blank rest,
         truthy blank = false ->
         ending (test_case_iter (first :: d ++ blank :: rest) m) = Some too_few).
Proof.
  intros Hm Hfirst Hk Hd Hshort.
  assert (Hdiv : Z.of_nat (length d) / m < k).
  { apply Z.div_lt_upper_bound; lia. }
  split.
  - destruct (accept_from_start first k m Hm Hfirst d []) as (gs & buf' & E & Hcat & Hgs & Hb);
      [assumption|right; lia|].
    rewrite app_nil_r in E. exists gs. split; [exact E|].
    apply (f_equal (fun l => Z.of_nat (length l))) in Hcat.
    rewrite length_map, length_app, Nat2Z.inj_add in Hcat.
    rewrite (concat_full_length m gs Hgs) in Hcat. nia.
  - intros blank rest Hblank.
    destruct (accept_from_start first k m Hm Hfirst d (blank :: rest))
      as (gs & buf' & E & _); [assumption|right; lia|].
    rewrite E, ending_prepend, loop_blank by assumption.
    test_false (k <? 0).
    test_false (Z.of_nat (length d) / m =? k).
    reflexivity.
Qed.

(** The input ["2\n3\n"]: two cases declared, one present, no blank line. *)
Lemma exhaustion_skips_count_check_witness :
  (exists gs,
      test_case_iter (splitlines (text ["2"; "3"])) 1
      = prepend (map (as_case 1) gs) TStop
      /\ Z.of_nat (length gs) < 2)
  /\ (forall blank rest,
         truthy blank = false ->
         ending (test_case_iter ("2" :: ["3"] ++ blank :: rest) 1) = Some too_few).
Proof.
  apply (exhaustion_skips_count_check "2" 2 1 ["3"]).
  - lia.
  - reflexivity.
  - lia.
  - repeat constructor.
  - simpl. lia.
Defined.

(** C4.  With a declared count [k >= 0], the non-blank line that arrives
    when [k] cases are complete raises "Too many inputs": the [k] cases made
    of the lines before it have been yielded, none beyond them, and nothing
    after that line is read. *)
Theorem too_many_at_first_excess_line
        (first : string) (k m : Z) (pre : list string) (line : string)
        (rest : list string) :
  1 <= m ->
  int first = inr k ->
  0 <= k ->
  Forall (fun l => truthy l = true) pre ->
  Z.of_nat (length pre) = k * m ->
  truthy line = true ->
  exists gs,
    test_case_iter (first :: pre ++ line :: rest) m
    = prepend (map (as_case m) gs) (TRaise too_many)
    /\ Z.of_nat (length gs) = k
    /\ Forall (fun g => Z.of_nat (length g) = m) gs
    /\ concat gs = map strip pre.
Proof. apply excess_line_raises. Qed.

(** The input ["1\nA\nB\n"]: the error is raised at the second data line,
    after the case ["A"]. *)
Lemma too_many_at_first_excess_line_witness :
  splitlines (text ["1"; "A"; "B"]) = "1" :: ["A"] ++ "B" :: []
  /\ test_case_iter ("1" :: ["A"] ++ "B" :: []) 1
     = TYield (CaseLine "A") (TRaise too_many)
  /\ exists gs,
      test_case_iter ("1" :: ["A"] ++ "B" :: []) 1
      = prepend (map (as_case 1) gs) (TRaise too_many)
      /\ Z.of_nat (length gs) = 1
      /\ Forall (fun g => Z.of_nat (length g) = 1) gs
      /\ concat gs = map strip ["A"].
Proof.
  split; [reflexivity|]. split; [reflexivity|].
  apply (too_many_at_first_excess_line "1" 1 1 ["A"] "B" []).
  - lia.
  - reflexivity.
  - lia.
  - repeat constructor.
  - reflexivity.
  - reflexivity.
Defined.

(** C5.  With a negative declared count the iteration never raises: it
    ends normally, and its cases are the complete groups of the data lines,
    the lines before the first blank line or the end of the input. *)
Theorem unlimited_never_raises
        (first : string) (k m : Z) (seq : list string) :
  1 <= m ->
  int first = inr k ->
  k < 0 ->
  exists gs tail,
    test_case_iter (first :: seq) m = prepend (map (as_case m) gs) TStop
    /\ ending (test_case_iter (first :: seq) m) = None
    /\ flat_map case_lines (yielded (test_case_iter (first :: seq) m)) ++ tail
       = map strip (data_lines seq)
    /\ Z.of_nat (length tail) < m.
Proof.
  intros Hm Hfirst Hk.
  destruct (unlimited_run first k m Hm Hfirst seq Hk)
    as (gs & tail & E & Hgs & Hcat & Htail).
  exists gs, tail. rewrite E, ending_prepend, yielded_prepend, app_nil_r.
  rewrite (case_lines_as_case m gs Hgs). repeat split; auto.
  rewrite Htail. apply Z.mod_pos_bound. lia.
Qed.

Lemma unlimited_never_raises_witness :
  exists gs tail,
    test_case_iter ("-1" :: ["x"; "y"; EmptyString; "z"]) 1
    = prepend (map (as_case 1) gs) TStop
    /\ ending (test_case_iter ("-1" :: ["x"; "y"; EmptyString; "z"]) 1) = None
    /\ flat_map case_lines
         (yielded (test_case_iter ("-1" :: ["x"; "y"; EmptyString; "z"]) 1))
       ++ tail
       = map strip (data_lines ["x"; "y"; EmptyString; "z"])
    /\ Z.of_nat (length tail) < 1.
Proof.
  apply (unlimited_never_raises "-1" (-1) 1 ["x"; "y"; EmptyString; "z"]).
  - lia.
  - reflexivity.
  - lia.
Defined.

(** C6 as stated fails: with a negative count, three data lines and two
    lines per case, the iteration ends normally having consumed three
    lines, which is not a multiple of two. *)
Lemma consumed_not_multiple :
  test_case_iter ["-1"; "a"; "b"; "c"] 2 = TYield (CaseGroup ["a"; "b"]) TStop
  /\ lines_consumed ["-1"; "a"; "b"; "c"] 2 = 3
  /\ lines_consumed ["-1"; "a"; "b"; "c"] 2 mod 2 <> 0.
Proof. repeat split. vm_compute. discriminate. Qed.

(** C6, amended.  For [m > 1] lines per case every case is a list of
    exactly [m] consecutive data lines, stripped, in input order; and when
    the declared count [k] is non-negative and the iteration ends without
    error at a blank line, the data lines consumed are all the [k * m] data
    lines, a multiple of [m]. *)
Theorem groups_of_consecutive_lines
        (first : string) (k m : Z) (seq : list string) :
  1 < m ->
  int first = inr k ->
  (exists gs tail,
      yielded (test_case_iter (first :: seq) m) = map CaseGroup gs
      /\ Forall (fun g => Z.of_nat (length g) = m) gs
      /\ map strip (data_lines seq) = concat gs ++ tail)
  /\ (0 <= k ->
      after_data seq <> [] ->
      ending (test_case_iter (first :: seq) m) = None ->
      lines_consumed (first :: seq) m = Z.of_nat (length (data_lines seq))
      /\ Z.of_nat (length (data_lines seq)) = k * m).
Proof.
  intros Hm Hfirst. assert (Hm1 : 1 <= m) by lia. split.
  - destruct (segmenter_groups first k m Hm1 Hfirst seq)
      as (gs & tail & fin & E & Hfin & Hgs & Hcat).
    exists gs, tail. rewrite E, yielded_prepend, Hfin, app_nil_r.
    repeat split; try assumption.
    apply map_ext. intros g. unfold as_case.
    test_false (m =? 1).
    reflexivity.
  - intros Hk Hafter Hend.
    destruct (data_lines_split seq) as [Hsplit Hblank].
    destruct (after_data seq) as [|blank rest] eqn:Ha; [congruence|].
    destruct (Z_le_gt_dec (Z.of_nat (length (data_lines seq))) (k * m))
      as [Hfit|Hover].
    + destruct (accept_from_start first k m Hm1 Hfirst (data_lines seq)
                                  (blank :: rest))
        as (gs & buf' & E & _); [apply data_lines_truthy|right; lia|].
      rewrite <- Hsplit in E.
      rewrite E, ending_prepend, loop_blank in Hend by assumption.
      replace (k <? 0) with false in Hend by (symmetry; apply Z.ltb_ge; lia).
      cbn [orb] in Hend.
      destruct (Z.of_nat (length (data_lines seq)) / m =? k) eqn:Hq;
        [|discriminate].
      apply Z.eqb_eq in Hq.
      assert (Hlen : Z.of_nat (length (data_lines seq)) = k * m).
      { pose proof (Z.mul_div_le (Z.of_nat (length (data_lines seq))) m).
        rewrite Hq in *. nia. }
      split; [|exact Hlen].
      unfold lines_consumed. rewrite Hfirst, Hsplit at 1.
      rewrite (final_ctr_accept k m Hm1) by
          (try apply data_lines_truthy; right; cbn [Z.add]; lia).
      cbn [final_ctr Z.add]. rewrite Hblank. reflexivity.
    + exfalso.
      set (n := Z.to_nat (k * m)).
      pose proof (firstn_skipn n (data_lines seq)) as Hcut.
      destruct (skipn n (data_lines seq)) as [|l more] eqn:Hmore.
      { apply (f_equal (@List.length string)) in Hcut.
        rewrite length_app, length_firstn in Hcut. simpl in Hcut.
        unfold n in Hcut. nia. }
      assert (Hall : Forall (fun l => truthy l = true)
                            (firstn n (data_lines seq) ++ l :: more)).
      { rewrite Hcut. apply data_lines_truthy. }
      apply Forall_app in Hall as [Hpre Hl].
      inversion Hl as [|? ? Hl1 _]; subst.
      assert (Hlen : Z.of_nat (length (firstn n (data_lines seq))) = k * m).
      { rewrite length_firstn. unfold n. nia. }
      destruct (excess_line_raises
                  first k m (firstn n (data_lines seq)) l
                  (more ++ blank :: rest) Hm1 Hfirst Hk Hpre Hlen Hl1)
        as (gs & E & _).
      rewrite Hsplit in Hend. rewrite <- Hcut in Hend at 1.
      rewrite <- app_assoc in Hend. cbn [app] in Hend.
      rewrite E, ending_prepend in Hend. discriminate.
Qed.

Lemma groups_of_consecutive_lines_witness :
  (exists gs tail,
      yielded (test_case_iter ("1" :: ["a"; "b"; EmptyString]) 2)
      = map CaseGroup gs
      /\ Forall (fun g => Z.of_nat (length g) = 2) gs
      /\ map strip (data_lines ["a"; "b"; EmptyString]) = concat gs ++ tail)
  /\ lines_consumed ("1" :: ["a"; "b"; EmptyString]) 2
     = Z.of_nat (length (data_lines ["a"; "b"; EmptyString]))
  /\ Z.of_nat (length (data_lines ["a"; "b"; EmptyString])) = 1 * 2.
Proof.
  destruct (groups_of_consecutive_lines "1" 1 2 ["a"; "b"; EmptyString])
    as [H1 H2]; [lia|reflexivity|].
  split; [exact H1|].
  apply H2; [lia|discriminate|reflexivity].
Defined.

(** C8 as stated fails: a line with leading whitespace is not emitted
    with that whitespace kept. *)
Lemma leading_whitespace_removed :
  yielded (test_case_iter ["1"; " 3"] 1) = [CaseLine "3"]
  /\ yielded (test_case_iter ["1"; " 3"] 1)
     <> map (fun l => CaseLine (rstrip l)) (data_lines [" 3"]).
Proof. split; [reflexivity|]. vm_compute. discriminate. Qed.

(** C8, amended.  The lines of the emitted cases are, in order, the first
    data lines of the input with the whitespace at both ends removed and
    everything between kept: each emitted line [strip l] neither starts nor
    ends with whitespace, and [l] is [strip l] between two runs of
    whitespace. *)
Theorem emitted_lines_stripped
        (first : string) (k m : Z) (seq : list string) :
  1 <= m ->
  int first = inr k ->
  exists emitted rest,
    data_lines seq = emitted ++ rest
    /\ flat_map case_lines (yielded (test_case_iter (first :: seq) m))
       = map strip emitted
    /\ Forall (fun l =>
                 exists a b,
                   l = (a ++ strip l ++ b)%string
                   /\ all_space a = true /\ all_space b = true
                   /\ match strip l with
                      | EmptyString => True
                      | String c _ => isspace c = false
                      end
                   /\ match last_byte (strip l) with
                      | Some c => isspace c = false
                      | None => True
                      end) emitted.
Proof.
  intros Hm Hfirst.
  destruct (segmenter_groups first k m Hm Hfirst seq)
    as (gs & tail & fin & E & Hfin & Hgs & Hcat).
  exists (firstn (length (concat gs)) (data_lines seq)),
         (skipn (length (concat gs)) (data_lines seq)).
  split; [symmetry; apply firstn_skipn|]. split.
  - rewrite E, yielded_prepend, Hfin, app_nil_r.
    rewrite (case_lines_as_case m gs Hgs).
    rewrite <- firstn_map, Hcat.
    rewrite firstn_app, Nat.sub_diag, firstn_all. cbn [firstn].
    rewrite app_nil_r. reflexivity.
  - apply Forall_forall. intros l _. apply strip_spec.
Qed.

Lemma emitted_lines_stripped_witness :
  exists emitted rest,
    data_lines ["  3 4 "; "5"] = emitted ++ rest
    /\ flat_map case_lines (yielded (test_case_iter ("2" :: ["  3 4 "; "5"]) 1))
       = map strip emitted
    /\ Forall (fun l =>
                 exists a b,
                   l = (a ++ strip l ++ b)%string
                   /\ all_space a = true /\ all_space b = true
                   /\ match strip l with
                      | EmptyString => True
                      | String c _ => isspace c = false
                      end
                   /\ match last_byte (strip l) with
                      | Some c => isspace c = false
                      | None => True
                      end) emitted.
Proof.
  apply (emitted_lines_stripped "2" 2 1 ["  3 4 "; "5"]); [lia|reflexivity].
Defined.



(** C10.  With a negative count and [m > 1] lines per case, when the
    number of data lines is not a multiple of [m] the iteration still ends
    normally: the cases are the complete groups, and the lines of the last,
    partly filled group are in no case. *)
Theorem partial_group_discarded
        (first : string) (k m : Z) (seq : list string) :
  1 < m ->
  int first = inr k ->
  k < 0 ->
  Z.of_nat (length (data_lines seq)) mod m <> 0 ->
  exists gs dropped,
    test_case_iter (first :: seq) m = prepend (map CaseGroup gs) TStop
    /\ Forall (fun g => Z.of_nat (length g) = m) gs
    /\ map strip (data_lines seq) = concat gs ++ dropped
    /\ dropped <> []
    /\ Z.of_nat (length dropped) = Z.of_nat (length (data_lines seq)) mod m.
Proof.
  intros Hm Hfirst Hk Hpart.
  destruct (unlimited_run first k m ltac:(lia) Hfirst seq Hk)
    as (gs & tail & E & Hgs & Hcat & Htail).
  exists gs, tail. repeat split; try assumption.
  - rewrite E. f_equal. apply map_ext. intros g. unfold as_case.
    test_false (m =? 1).
    reflexivity.
  - intros ->. simpl in Htail. lia.
Qed.

Lemma partial_group_discarded_witness :
  exists gs dropped,
    test_case_iter ("-1" :: ["a"; "b"; "c"]) 2
    = prepend (map CaseGroup gs) TStop
    /\ Forall (fun g => Z.of_nat (length g) = 2) gs
    /\ map strip (data_lines ["a"; "b"; "c"]) = concat gs ++ dropped
    /\ dropped <> []
    /\ Z.of_nat (length dropped)
       = Z.of_nat (length (data_lines ["a"; "b"; "c"])) mod 2.
Proof.
  apply (partial_group_discarded "-1" (-1) 2 ["a"; "b"; "c"]).
  - lia.
  - reflexivity.
  - lia.
  - vm_compute. discriminate.
Defined.

(** ** The ordered parallel map *)

Section PoolFacts.

Context {A B : Type}.
Variable func : A -> result B.

Local Open Scope nat_scope.

Lemma mapstar_length (l : list A) :
  forall rs, mapstar func l = inr rs -> length rs = length l.
Proof.
  induction l as [|a l IH]; simpl; intros rs H.
  - injection H as <-. reflexivity.
  - destruct (func a); [discriminate|]. simpl in H.
    destruct (mapstar func l); [discriminate|]. simpl in H.
    injection H as <-. simpl. f_equal. apply IH. reflexivity.
Qed.

Lemma mapstar_firstn (n : nat) :
  forall l rs, mapstar func l = inr rs ->
               mapstar func (firstn n l) = inr (firstn n rs).
Proof.
  induction n as [|n IH]; intros l rs H; [reflexivity|].
  destruct l as [|a l]; simpl in *.
  - injection H as <-. reflexivity.
  - destruct (func a); [discriminate|]. simpl in *.
    destruct (mapstar func l) eqn:E; [discriminate|]. simpl in H.
    injection H as <-. simpl. rewrite (IH l l0 E). reflexivity.
Qed.

Lemma mapstar_skipn (n : nat) :
  forall l rs, mapstar func l = inr rs ->
               mapstar func (skipn n l) = inr (skipn n rs).
Proof.
  induction n as [|n IH]; intros l rs H; [exact H|].
  destruct l as [|a l]; simpl in *.
  - injection H as <-. reflexivity.
  - destruct (func a); [discriminate|]. simpl in *.
    destruct (mapstar func l) eqn:E; [discriminate|]. simpl in H.
    injection H as <-. simpl. apply IH. exact E.
Qed.

Lemma mapstar_app_fail (l1 l2 : list A) (e : exn) :
  mapstar func (l1 ++ l2) = inl e ->
  mapstar func l1 = inl e \/ mapstar func l2 = inl e.
Proof.
  induction l1 as [|a l1 IH]; simpl; intros H; [right; exact H|].
  destruct (func a); [left; exact H|]. simpl in *.
  destruct (mapstar func (l1 ++ l2)) eqn:E; [|discriminate].
  simpl in H. injection H as ->.
  destruct (IH eq_refl) as [H1|H2]; [left; rewrite H1; reflexivity|right; exact H2].
Qed.

Lemma batch_count_step (n size : nat) :
  1 <= size -> 1 <= n ->
  batch_count n size = S (batch_count (n - size) size).
Proof.
  intros Hs Hn. unfold batch_count.
  destruct (Nat.lt_ge_cases n size) as [Hlt|Hge].
  - replace (n - size) with 0 by lia.
    rewrite Nat.div_small, Nat.mod_small by assumption.
    rewrite Nat.Div0.div_0_l, Nat.Div0.mod_0_l.
    destruct (Nat.eqb n 0) eqn:E; [apply Nat.eqb_eq in E; lia|reflexivity].
  - replace n with ((n - size) + 1 * size) at 1 2 by lia.
    rewrite Nat.div_add, Nat.Div0.mod_add by lia. lia.
Qed.

Lemma get_tasks_length (size : nat) :
  1 <= size ->
  forall fuel (l : list A),
    length l <= fuel ->
    length (get_tasks fuel size l) = batch_count (length l) size.
Proof.
  intros Hs. induction fuel as [|fuel IH]; intros l Hl.
  - destruct l; [|simpl in Hl; lia]. unfold batch_count. simpl.
    rewrite Nat.Div0.div_0_l, Nat.Div0.mod_0_l. reflexivity.
  - cbn [get_tasks]. destruct l as [|a l].
    + rewrite firstn_nil. unfold batch_count. simpl.
      rewrite Nat.Div0.div_0_l, Nat.Div0.mod_0_l. reflexivity.
    + destruct size as [|size]; [lia|].
      rewrite (batch_count_step (length (a :: l)) (S size)) by (simpl; lia).
      cbn [firstn].
      change (length ((a :: firstn size l)
                        :: get_tasks fuel (S size) (skipn (S size) (a :: l))))
        with (S (length (get_tasks fuel (S size) (skipn (S size) (a :: l))))).
      rewrite IH by (rewrite length_skipn; simpl in *; lia).
      rewrite length_skipn. reflexivity.
Qed.

Lemma get_tasks_nth (size : nat) :
  1 <= size ->
  forall fuel (l : list A) i,
    length l <= fuel ->
    i * size < length l ->
    nth_error (get_tasks fuel size l) i = Some (firstn size (skipn (i * size) l)).
Proof.
  intros Hs. induction fuel as [|fuel IH]; intros l i Hl Hi; [lia|].
  destruct l as [|a l]; [simpl in Hi; lia|].
  destruct size as [|size]; [lia|].
  destruct i as [|i]; [reflexivity|].
  replace (S i * S size) with (i * S size + S size) by lia.
  rewrite <- skipn_skipn.
  set (tl := skipn (S size) (a :: l)).
  cbn [get_tasks firstn nth_error]. fold tl.
  assert (Htl : length tl = length (a :: l) - S size)
    by (unfold tl; apply length_skipn).
  rewrite IH; [reflexivity| |]; rewrite Htl; simpl in *; lia.
Qed.

Lemma get_tasks_concat (size : nat) :
  1 <= size ->
  forall fuel (l : list A),
    length l <= fuel -> concat (get_tasks fuel size l) = l.
Proof.
  intros Hs. induction fuel as [|fuel IH]; intros l Hl.
  - destruct l; [reflexivity|simpl in Hl; lia].
  - cbn [get_tasks]. destruct l as [|a l]; [rewrite firstn_nil; reflexivity|].
    destruct size as [|size]; [lia|]. cbn [firstn concat].
    rewrite IH by (rewrite length_skipn; simpl in *; lia).
    change (a :: firstn size l) with (firstn (S size) (a :: l)).
    apply firstn_skipn.
Qed.

End PoolFacts.

Section SlotFacts.

Context {B : Type}.
Variables (rs : list B) (size : nat).
Hypothesis size_pos : (1 <= size)%nat.

Local Open Scope nat_scope.

Lemma div_in_batch (j i : nat) :
  Nat.eqb (j / size) i = (Nat.leb (i * size) j && Nat.ltb j ((i + 1) * size))%bool.
Proof.
  pose proof (Nat.div_mod_eq j size) as E.
  pose proof (Nat.mod_upper_bound j size ltac:(lia)) as Hr.
  destruct (Nat.eqb_spec (j / size) i) as [Hq|Hq];
    destruct (Nat.leb_spec (i * size) j) as [H1|H1];
    destruct (Nat.ltb_spec j ((i + 1) * size)) as [H2|H2];
    try reflexivity; exfalso; nia.
Qed.

Lemma nth_error_filled (done : list nat) (j : nat) :
  nth_error (filled rs size done) j
  = if Nat.ltb j (length rs)
    then Some (if existsb (Nat.eqb (j / size)) done then nth_error rs j else None)
    else None.
Proof.
  unfold filled. rewrite nth_error_map, nth_error_seq.
  destruct (Nat.ltb j (length rs)); reflexivity.
Qed.

Lemma length_filled (done : list nat) :
  length (filled rs size done) = length rs.
Proof. unfold filled. rewrite length_map, length_seq. reflexivity. Qed.

Lemma filled_none : filled rs size [] = repeat None (length rs).
Proof.
  unfold filled. cbn [existsb]. generalize 0.
  induction (length rs) as [|n IH]; intros s; [reflexivity|].
  cbn [seq map repeat]. f_equal. apply IH.
Qed.

Lemma filled_all (done : list nat) :
  (forall c, c < batch_count (length rs) size -> In c done) ->
  filled rs size done = map Some rs.
Proof.
  intros Hall. apply nth_error_ext. intros j.
  rewrite nth_error_filled, nth_error_map.
  destruct (Nat.ltb_spec j (length rs)) as [Hj|Hj].
  - replace (existsb (Nat.eqb (j / size)) done) with true.
    + destruct (nth_error rs j) eqn:E; [reflexivity|].
      apply nth_error_None in E. lia.
    + symmetry. apply existsb_exists. exists (j / size).
      split; [|apply Nat.eqb_refl].
      apply Hall. unfold batch_count.
      pose proof (Nat.div_mod_eq j size).
      pose proof (Nat.mod_upper_bound j size ltac:(lia)).
      pose proof (Nat.div_mod_eq (length rs) size).
      pose proof (Nat.mod_upper_bound (length rs) size ltac:(lia)).
      destruct (Nat.eqb_spec (length rs mod size) 0); nia.
  - apply nth_error_None in Hj. rewrite Hj. reflexivity.
Qed.

(** Storing the results of batch [i] by slice assignment. *)
Lemma set_slice_filled (done : list nat) (i : nat) :
  i * size < length rs ->
  set_slice (filled rs size done) (i * size) ((i + 1) * size)
            (map Some (firstn size (skipn (i * size) rs)))
  = filled rs size (i :: done).
Proof.
  intros Hi. apply nth_error_ext. intros j. unfold set_slice.
  rewrite Nat.max_r by lia.
  rewrite !nth_error_app, length_firstn, length_filled, length_map,
    length_firstn, length_skipn.
  rewrite nth_error_firstn, nth_error_skipn, nth_error_map, nth_error_firstn,
    nth_error_skipn, !nth_error_filled.
  cbn [existsb]. rewrite div_in_batch.
  rewrite Nat.min_l by lia.
  destruct (Nat.ltb_spec j (i * size)) as [H1|H1].
  - test_false (Nat.leb (i * size) j).
    reflexivity.
  - test_true (Nat.leb (i * size) j).
    cbn [andb].
    destruct (Nat.ltb_spec (j - i * size) (Nat.min size (length rs - i * size)))
      as [H2|H2].
    + test_true (Nat.ltb (j - i * size) size).
      replace (i * size + (j - i * size)) with j by lia.
      test_true (Nat.ltb j ((i + 1) * size)).
      test_true (Nat.ltb j (length rs)).
      cbn [orb]. destruct (nth_error rs j) eqn:E; [reflexivity|].
      apply nth_error_None in E. lia.
    + destruct (Nat.ltb_spec j (length rs)) as [H3|H3].
      * replace ((i + 1) * size
                 + (j - i * size - Nat.min size (length rs - i * size)))
          with j by lia.
        test_true (Nat.ltb j (length rs)).
        test_false (Nat.ltb j ((i + 1) * size)).
        reflexivity.
      * test_false (Nat.ltb ((i + 1) * size
                          + (j - i * size - Nat.min size (length rs - i * size)))
                         (length rs)).
        reflexivity.
Qed.

End SlotFacts.

Section HandlerFacts.

Context {A B : Type}.
Variable func : A -> result B.
Variables (l : list A) (size : nat).
Hypothesis size_pos : (1 <= size)%nat.

Local Open Scope nat_scope.

Local Abbreviation tasks := (get_tasks (length l) size l).
Local Abbreviation N := (batch_count (length l) size).

Lemma batch_index_bound (i : nat) : i < N -> i * size < length l.
Proof.
  unfold batch_count.
  pose proof (Nat.div_mod_eq (length l) size).
  pose proof (Nat.mod_upper_bound (length l) size ltac:(lia)).
  destruct (Nat.eqb_spec (length l mod size) 0); nia.
Qed.

(** While every job succeeds, each batch result that arrives fills the
    slots of its batch, whatever the order of arrival. *)
Lemma handle_results_stored (rs : list B) :
  mapstar func l = inr rs ->
  forall todo done,
    (forall i, In i todo -> i < N) ->
    length done + length todo <= N ->
    handle_results func tasks todo (stored rs size done)
    = stored rs size (rev todo ++ done).
Proof.
  intros Hrs. pose proof (mapstar_length func l rs Hrs) as Hlen.
  induction todo as [|i todo IH]; intros done Hin Hcount; [reflexivity|].
  cbn [handle_results].
  assert (Hi : i < N) by (apply Hin; left; reflexivity).
  rewrite (get_tasks_nth size size_pos (length l) l i (Nat.le_refl _)
                         (batch_index_bound i Hi)).
  unfold worker.
  rewrite (mapstar_firstn func size _ _ (mapstar_skipn func (i * size) _ _ Hrs)).
  replace (MapResult_set (stored rs size done) i
             (inr (firstn size (skipn (i * size) rs))))
    with (stored rs size (i :: done)).
  - rewrite IH.
    + cbn [rev]. rewrite <- app_assoc. reflexivity.
    + intros j Hj. apply Hin. right. exact Hj.
    + cbn [length] in *. lia.
  - unfold MapResult_set, stored. cbn [_ready _value _chunksize _number_left _success].
    rewrite Hlen. cbn [length] in Hcount.
    test_false (Nat.eqb (N - length done) 0).
    rewrite set_slice_filled by (try assumption; rewrite Hlen;
                                 apply batch_index_bound; assumption).
    cbn [length].
    replace (N - length done - 1) with (N - S (length done)) by lia.
    reflexivity.
Qed.

(** A batch that does not deliver a value keeps the map from completing. *)
Lemma handle_results_failing (f : nat) :
  (forall batch res, nth_error tasks f = Some batch ->
                     worker func batch <> Some (inr res)) ->
  forall todo done m,
    (_success m = false /\ _ready m = true)
    \/ (_success m = true
        /\ _ready m = Nat.eqb (_number_left m) 0
        /\ N + (if existsb (Nat.eqb f) done then 1 else 0)
           <= _number_left m + length done) ->
    let m' := handle_results func tasks todo m in
    (_success m' = false /\ _ready m' = true)
    \/ (_success m' = true
        /\ _ready m' = Nat.eqb (_number_left m') 0
        /\ N + (if existsb (Nat.eqb f) (rev todo ++ done) then 1 else 0)
           <= _number_left m' + length (rev todo ++ done)).
Proof.
  intros Hf. induction todo as [|i todo IH]; intros done m Hinv; [exact Hinv|].
  cbn [handle_results rev]. rewrite <- app_assoc. cbn [app].
  apply IH. clear IH.
  assert (Hkeep :
            (_success m = false /\ _ready m = true)
            \/ (_success m = true
                /\ _ready m = Nat.eqb (_number_left m) 0
                /\ N + (if existsb (Nat.eqb f) (i :: done) then 1 else 0)
                   <= _number_left m + length (i :: done))).
  { destruct Hinv as [Hfail|(Hs & Hr & Hb)]; [left; exact Hfail|right].
    repeat split; try assumption. cbn [existsb length].
    destruct (Nat.eqb f i); destruct (existsb (Nat.eqb f) done);
      cbn [orb] in *; lia. }
  destruct (nth_error tasks i) as [batch|] eqn:Hbatch; [|exact Hkeep].
  destruct (worker func batch) as [sr|] eqn:Hw; [|exact Hkeep].
  unfold MapResult_set.
  destruct (Bool.bool_dec (_ready m) true) as [Hready|Hready];
    [rewrite Hready; exact Hkeep|].
  apply not_true_is_false in Hready. rewrite Hready.
  destruct Hinv as [[_ Hr]|(Hs & Hr & Hb)]; [congruence|].
  destruct sr as [e|res].
  - left. split; reflexivity.
  - right. cbn [_success _ready _number_left]. repeat split; try assumption.
    assert (Hleft : 1 <= _number_left m).
    { rewrite Hready in Hr. symmetry in Hr. apply Nat.eqb_neq in Hr. lia. }
    assert (Hne : Nat.eqb f i = false).
    { apply Nat.eqb_neq. intros ->. exact (Hf batch res Hbatch Hw). }
    cbn [existsb length]. rewrite Hne. cbn [orb]. lia.
Qed.

Lemma mapstar_concat_fail (ts : list (list A)) (e : exn) :
  mapstar func (concat ts) = inl e ->
  exists f batch, nth_error ts f = Some batch /\ mapstar func batch = inl e.
Proof.
  induction ts as [|t ts IH]; [discriminate|].
  cbn [concat]. intros H. apply mapstar_app_fail in H as [H|H].
  - exists 0, t. split; [reflexivity|exact H].
  - destruct (IH H) as (f & batch & Hn & Hb). exists (S f), batch. auto.
Qed.

End HandlerFacts.

Section PoolMapFacts.

Context {A B : Type}.
Variable func : A -> result B.

Local Open Scope nat_scope.

Lemma default_chunksize_pos (processes n : nat) :
  1 <= processes -> 1 <= n -> 1 <= default_chunksize processes n.
Proof.
  intros Hp Hn. unfold default_chunksize.
  destruct (Nat.eqb_spec n 0); [lia|].
  pose proof (Nat.div_mod_eq n (processes * 4)).
  destruct (Nat.eqb_spec (n mod (processes * 4)) 0); nia.
Qed.

Lemma init_stored (rs : list B) (size : nat) :
  1 <= size -> 1 <= length rs ->
  MapResult_init size (length rs) = stored rs size [].
Proof.
  intros Hs Hn. unfold MapResult_init, stored.
  rewrite filled_none. cbn [length]. rewrite Nat.sub_0_r.
  test_false (Nat.leb size 0).
  fold (batch_count (length rs) size).
  replace (Nat.eqb (batch_count (length rs) size) 0) with false; [reflexivity|].
  symmetry. apply Nat.eqb_neq. unfold batch_count.
  pose proof (Nat.div_mod_eq (length rs) size).
  destruct (Nat.eqb_spec (length rs mod size) 0); nia.
Qed.

(** When every job succeeds, [Pool.map] returns the results in job order
    for every complete schedule. *)
Lemma pool_map_returns (processes : nat) (jobs : trace A) (l : list A)
      (rs : list B) (sched : list nat) :
  1 <= processes ->
  to_list jobs = inr l ->
  mapstar func l = inr rs ->
  fair sched (length (get_tasks (length l)
                        (default_chunksize processes (length l)) l)) ->
  pool_map func processes jobs sched = Returned (map Some rs).
Proof.
  intros Hp Hl Hrs Hfair. unfold pool_map. rewrite Hl.
  pose proof (mapstar_length func l rs Hrs) as Hlen.
  destruct l as [|a l'].
  - simpl in Hrs. injection Hrs as <-.
    unfold fair in Hfair. cbn in Hfair.
    apply Permutation_sym, Permutation_nil in Hfair. subst sched. reflexivity.
  - set (l := a :: l') in *.
    assert (Hn : 1 <= length l) by (unfold l; simpl; lia).
    pose proof (default_chunksize_pos processes (length l) Hp Hn) as Hs.
    set (size := default_chunksize processes (length l)) in *.
    unfold fair in Hfair. rewrite (get_tasks_length size Hs) in Hfair by lia.
    rewrite <- Hlen at 2.
    rewrite (init_stored rs size Hs) by lia.
    rewrite (handle_results_stored func l size Hs rs Hrs).
    + rewrite app_nil_r. unfold get, stored.
      cbn [_ready _success _value _number_left].
      rewrite length_rev, (Permutation_length Hfair), length_seq.
      rewrite Hlen.
      rewrite Nat.sub_diag. cbn [Nat.eqb]. f_equal.
      apply filled_all; [assumption|].
      intros c Hc. apply in_rev. rewrite rev_involutive.
      apply (Permutation_in c (Permutation_sym Hfair)).
      apply in_seq. rewrite Hlen in Hc. lia.
    + intros i Hi. apply (Permutation_in i Hfair) in Hi.
      apply in_seq in Hi. lia.
    + cbn [length]. rewrite (Permutation_length Hfair), length_seq. lia.
Qed.

(** When some job raises, [Pool.map] does not return a value. *)
Lemma pool_map_not_returned (processes : nat) (jobs : trace A) (l : list A)
      (e : exn) (sched : list nat) :
  1 <= processes ->
  to_list jobs = inr l ->
  mapstar func l = inl e ->
  fair sched (length (get_tasks (length l)
                        (default_chunksize processes (length l)) l)) ->
  forall v, pool_map func processes jobs sched <> Returned v.
Proof.
  intros Hp Hl He Hfair v. unfold pool_map. rewrite Hl.
  destruct l as [|a l']; [discriminate|].
  set (l := a :: l') in *.
  assert (Hn : 1 <= length l) by (unfold l; simpl; lia).
  pose proof (default_chunksize_pos processes (length l) Hp Hn) as Hs.
  set (size := default_chunksize processes (length l)) in *.
  unfold fair in Hfair.
  pose proof (get_tasks_length size Hs (length l) l (Nat.le_refl _)) as HN.
  rewrite HN in Hfair.
  rewrite <- (get_tasks_concat size Hs (length l) l (Nat.le_refl _)) in He.
  apply mapstar_concat_fail in He as (f & batch & Hf & Hb).
  assert (HfN : f < batch_count (length l) size).
  { rewrite <- HN. apply nth_error_Some. congruence. }
  pose proof (handle_results_failing func l size Hs f) as Hinv.
  specialize (Hinv ltac:(intros b res Hb'; unfold worker;
                         assert (b = batch) by congruence; subst b;
                         rewrite Hb;
                         destruct (issubclass (exn_cls e) Exception);
                         discriminate)).
  specialize (Hinv sched [] (MapResult_init size (length l))).
  cbv zeta in Hinv.
  destruct Hinv as [[Hs' _]|(_ & Hr & Hbound)].
  - right. unfold MapResult_init. cbn [_success _ready _number_left].
    test_false (Nat.leb size 0).
    fold (batch_count (length l) size). repeat split.
    + symmetry. apply Nat.eqb_neq. lia.
    + cbn [existsb length]. lia.
  - unfold get. rewrite Hs'.
    destruct (_ready _); [|discriminate].
    destruct (_value _); discriminate.
  - rewrite app_nil_r, length_rev, (Permutation_length Hfair), length_seq
      in Hbound.
    replace (existsb (Nat.eqb f) (rev sched)) with true in Hbound.
    + unfold get. rewrite Hr.
      replace (Nat.eqb (_number_left _) 0) with false; [discriminate|].
      symmetry. apply Nat.eqb_neq. lia.
    + symmetry. apply existsb_exists. exists f. split; [|apply Nat.eqb_refl].
      apply in_rev. rewrite rev_involutive.
      apply (Permutation_in f (Permutation_sym Hfair)). apply in_seq. lia.
Qed.

End PoolMapFacts.

Section SerialFacts.

Context {P R : Type}.
Variable self : @Main P R.

(** The serial strategy returns exactly when the jobs can be listed and
    every one of them executes. *)
Lemma execute_serially_returns (jobs : trace job) (rs : list R) :
  execute_serially self jobs = inr rs
  <-> exists l, to_list jobs = inr l /\ mapstar (execute self) l = inr rs.
Proof.
  revert rs. induction jobs as [j rest IH| |e]; intros rs.
  - cbn [execute_serially to_list]. split.
    + intros H. destruct (execute self j) as [e|r] eqn:Ej; [discriminate|].
      cbn [bind] in H.
      destruct (execute_serially self rest) as [e|rs'] eqn:Er; [discriminate|].
      cbn [bind ret] in H. injection H as <-.
      destruct (proj1 (IH rs') eq_refl) as (l & Hl & Hm).
      exists (j :: l). rewrite Hl. cbn [bind ret mapstar].
      rewrite Ej, Hm. split; reflexivity.
    + intros (l & Hl & Hm).
      destruct (to_list rest) as [e|l'] eqn:El; [discriminate|].
      cbn [bind ret] in Hl. injection Hl as <-. cbn [mapstar] in Hm.
      destruct (execute self j) as [e|r]; [discriminate|]. cbn [bind] in *.
      destruct (mapstar (execute self) l') as [e|rs'] eqn:Em; [discriminate|].
      cbn [bind ret] in Hm. injection Hm as <-.
      rewrite (proj2 (IH rs')); [reflexivity|].
      exists l'. split; [reflexivity|exact Em].
  - cbn. split.
    + intros H. injection H as <-. exists []. split; reflexivity.
    + intros (l & Hl & Hm). injection Hl as <-. exact Hm.
  - cbn. split; [discriminate|]. intros (l & Hl & _). discriminate.
Qed.

End SerialFacts.

(** ** Claims about the execution strategies *)



Example threaded_out_of_order :
  execute_threaded 8 (echo 1 (Some 4)) [2; 0; 1]%nat
                   (enumerate (test_case_iter ["3"; "a"; "b"; "c"] 1) 1)
  = Returned [Some (CaseLine "a"); Some (CaseLine "b"); Some (CaseLine "c")].
Proof. vm_compute. reflexivity. Qed.

(** ** Claims about the test harness *)

(** No call of [TestData.__init__] returns: each branch reads a name that
    is bound nowhere. *)
Lemma TestData_init_raises (dedent : string -> string)
      (test_name : string) (num_cases : Z) (input_str : string)
      (expected : pyval) :
  exists x,
    TestData_init dedent test_name num_cases input_str expected
    = raise NameError ("global name '" ++ x ++ "' is not defined")%string.
Proof.
  destruct expected; [exists "error_class"|exists "output_str"
                      |exists "error_class"..]; reflexivity.
Qed.

(** C3 (the code departs from it).  Building the round-trip fixture raises
    [NameError]: [__init__] reads [output_str], a name bound neither in the
    function nor in the module. *)
Theorem roundtrip_fixture_not_built (dedent : string -> string) :
  TestData_init dedent "roundtrip" 2 (text ["2"; "3"; "4"])
                (VStr (text ["Case #1: 3"; "Case #2: 4"]))
  = raise NameError "global name 'output_str' is not defined".
Proof. reflexivity. Qed.

(** On a record whose slots hold what the fixture describes, the rest of
    the harness does what the claim says. *)
Lemma roundtrip_run_passes :
  _run (echo 1 None)
       {| test_name := Some "roundtrip";
          num_cases := Some 2;
          input_str := Some (text ["2"; "3"; "4"]);
          output_str := Some (text ["Case #1: 3"; "Case #2: 4"]);
          error_class := Some VNone |}
  = ret tt.
Proof. vm_compute. reflexivity. Qed.

(** With the slot [error_class] left unset, as the [str] branch of
    [__init__] would leave it, [_run] raises [AttributeError]. *)
Lemma roundtrip_run_unset_slot :
  _run (echo 1 None)
       {| test_name := Some "roundtrip";
          num_cases := Some 2;
          input_str := Some (text ["2"; "3"; "4"]);
          output_str := Some (text ["Case #1: 3"; "Case #2: 4"]);
          error_class := None |}
  = raise AttributeError "error_class".
Proof. vm_compute. reflexivity. Qed.

(** [Main] has no method [execute_all]. *)
Lemma run_on_Main_raises (lines : Z) (data : TestData) (s : string) (v : pyval) :
  input_str data = Some s ->
  error_class data = Some v ->
  val_truthy v = false ->
  _run {| name := "main"; lines_per_case := lines; threads := None;
          parse_input := Main_parse_input; solve := @Main_solve case;
          str_ := str_case; execute_all := None |} data
  = raise AttributeError "execute_all".
Proof.
  intros Hs Hv Ht. unfold _run, iter_cases. rewrite Hs, Hv. cbn.
  rewrite Ht. reflexivity.
Qed.

Section ExpectedFailure.

Context {P R : Type}.
Variables (driver : @Main P R) (data : TestData).
Variables (s : string) (c : exn_class).
Variable f : trace job -> result (list R).
Hypothesis data_input : input_str data = Some s.
Hypothesis data_error : error_class data = Some (VClass c).
Hypothesis driver_execute_all : execute_all driver = Some f.

Local Abbreviation jobs :=
  (enumerate (test_case_iter (splitlines s) (lines_per_case driver)) 1).

(** A failure of the declared class, or of a subclass, passes the test;
    any other failure leaves [_run]. *)
Lemma run_failure (e : exn) :
  f jobs = inl e ->
  _run driver data = if issubclass (exn_cls e) c then ret tt else inl e.
Proof.
  intros He. unfold _run, iter_cases, call_execute_all.
  rewrite data_input, data_error, driver_execute_all. cbn. rewrite He.
  reflexivity.
Qed.

(** A successful run raises [AssertionError] inside the [try] block, so it
    is subject to the [except] clause like any other failure. *)
Lemma run_success (results : list R) :
  f jobs = inr results ->
  _run driver data
  = if issubclass AssertionError c then ret tt
    else raise AssertionError "Expected execution failure".
Proof.
  intros He. unfold _run, iter_cases, call_execute_all.
  rewrite data_input, data_error, driver_execute_all. cbn. rewrite He.
  reflexivity.
Qed.

End ExpectedFailure.

(** C7 (the code departs from it).  When the declared failure class is
    [AssertionError] or one of its base classes, a run that succeeds makes
    the test pass: the [AssertionError] that reports the missing failure is
    raised inside the [try] block and caught by the [except] clause. *)
Theorem expected_failure_passes_on_success
        {P R : Type} (driver : @Main P R) (data : TestData)
        (s : string) (c : exn_class)
        (f : trace job -> result (list R)) (results : list R) :
  input_str data = Some s ->
  error_class data = Some (VClass c) ->
  execute_all driver = Some f ->
  f (enumerate (test_case_iter (splitlines s) (lines_per_case driver)) 1)
  = inr results ->
  issubclass AssertionError c = true ->
  _run driver data = ret tt.
Proof.
  intros Hs Hc Hf Hrun Hsub.
  rewrite (run_success driver data s c f Hs Hc Hf results Hrun), Hsub.
  reflexivity.
Qed.

(** The fixture expects [AssertionError] for the input ["1\n3\n"], which
    holds the one case it declares. *)
Lemma expected_failure_passes_on_success_witness :
  call_execute_all (echo 1 None)
    (enumerate (test_case_iter (splitlines (text ["1"; "3"])) 1) 1)
  = inr [CaseLine "3"]
  /\ _run (echo 1 None)
          {| test_name := Some "too_few";
             num_cases := Some 1;
             input_str := Some (text ["1"; "3"]);
             output_str := None;
             error_class := Some (VClass AssertionError) |}
     = ret tt.
Proof.
  split; [reflexivity|].
  apply (expected_failure_passes_on_success
           (echo 1 None) _ (text ["1"; "3"]) AssertionError
           (execute_serially (echo_base 1)) [CaseLine "3"]);
    reflexivity.
Defined.

(** * Further properties of the code *)

(** ** The segmenter *)

Section SegmenterBounds.

Variables (first : string) (k m : Z).
Hypothesis m_pos : 1 <= m.
Hypothesis first_count : int first = inr k.

Local Abbreviation len l := (Z.of_nat (List.length l)).

(** The cases of a run under a declared count [k >= 0], and their number. *)
Lemma bounded_run (seq : list string) :
  0 <= k ->
  exists gs fin,
    test_case_iter (first :: seq) m = prepend (map (as_case m) gs) fin
    /\ yielded fin = []
    /\ len gs <= k
    /\ (ending fin = None -> after_data seq <> [] -> len gs = k).
Proof.
  intros Hk. destruct (data_lines_split seq) as [Hsplit Hafter].
  destruct (Z_le_gt_dec (len (data_lines seq)) (k * m)) as [Hfit|Hover].
  - destruct (accept_from_start first k m m_pos first_count
                                (data_lines seq) (after_data seq))
      as (gs & buf' & E & Hcat & Hgs & Hb);
      [apply data_lines_truthy|right; exact Hfit|].
    rewrite <- Hsplit in E.
    assert (Hsum : len gs * m + len buf' = len (data_lines seq)).
    { apply (f_equal (fun l => len l)) in Hcat.
      rewrite length_map, length_app, Nat2Z.inj_add in Hcat.
      rewrite (concat_full_length m gs Hgs) in Hcat. lia. }
    exists gs, (loop k m (len (data_lines seq)) (next_of buf') (after_data seq)).
    split; [exact E|].
    destruct (after_data seq) as [|blank rest].
    + repeat split; [nia|congruence].
    + rewrite loop_blank by assumption.
      test_false (k <? 0). cbn [orb].
      destruct (len (data_lines seq) / m =? k) eqn:Hq.
      * apply Z.eqb_eq in Hq. repeat split; [nia|]. intros _ _.
        pose proof (Z.mul_div_le (len (data_lines seq)) m ltac:(lia)).
        pose proof (Z.mod_pos_bound (len (data_lines seq)) m ltac:(lia)).
        rewrite Hq in *. nia.
      * repeat split; [nia|]. discriminate.
  - set (n := Z.to_nat (k * m)).
    pose proof (firstn_skipn n (data_lines seq)) as Hcut.
    destruct (skipn n (data_lines seq)) as [|l more] eqn:Hmore.
    { apply (f_equal (@List.length string)) in Hcut.
      rewrite length_app, length_firstn in Hcut. simpl in Hcut.
      unfold n in Hcut. nia. }
    assert (Hall : Forall (fun l => truthy l = true)
                          (firstn n (data_lines seq) ++ l :: more)).
    { rewrite Hcut. apply data_lines_truthy. }
    apply Forall_app in Hall as [Hpre Hl].
    inversion Hl as [|? ? Hl1 _]; subst.
    assert (Hlen : len (firstn n (data_lines seq)) = k * m).
    { rewrite length_firstn. unfold n. nia. }
    destruct (excess_line_raises first k m (firstn n (data_lines seq)) l
                                 (more ++ after_data seq)
                                 m_pos first_count Hk Hpre Hlen Hl1)
      as (gs & E & Hgs & _).
    exists gs, (TRaise too_many). repeat split.
    + rewrite Hsplit at 1. rewrite <- Hcut at 1. rewrite <- app_assoc.
      exact E.
    + lia.
    + discriminate.
Qed.

End SegmenterBounds.

(** X1.  Under a declared count [k >= 0] the segmenter never yields more
    than [k] cases, whatever the input, and whether it ends normally or
    by an error. *)
Theorem never_more_than_declared
        (first : string) (k m : Z) (seq : list string) :
  1 <= m ->
  int first = inr k ->
  0 <= k ->
  Z.of_nat (length (yielded (test_case_iter (first :: seq) m))) <= k.
Proof.
  intros Hm Hfirst Hk.
  destruct (bounded_run first k m Hm Hfirst seq Hk) as (gs & fin & E & Hfin & Hle & _).
  rewrite E, yielded_prepend, Hfin, app_nil_r, length_map. exact Hle.
Qed.

Lemma never_more_than_declared_witness :
  Z.of_nat (length (yielded (test_case_iter ("1" :: ["a"; "b"; "c"]) 1))) <= 1.
Proof.
  apply (never_more_than_declared "1" 1 1 ["a"; "b"; "c"]);
    [lia|reflexivity|lia].
Defined.

Lemma loop_after_blank (k m : Z) (blank : string) (r1 r2 : list string) :
  truthy blank = false ->
  forall d ctr next,
    loop k m ctr next (d ++ blank :: r1) = loop k m ctr next (d ++ blank :: r2).
Proof.
  intros Hblank. induction d as [|line d IH]; intros ctr next.
  - cbn [app]. rewrite !loop_blank by assumption. reflexivity.
  - cbn [app loop].
    destruct (truthy line); [|reflexivity].
    destruct ((k <? 0) || (ctr / m <? k)); [|reflexivity].
    destruct (m =? 1); [rewrite IH; reflexivity|].
    destruct ((ctr + 1) mod m =? 0); rewrite IH; reflexivity.
Qed.

(** X2.  Nothing after the first blank line is read: two inputs that
    agree up to and including a blank line are segmented alike. *)
Theorem lines_after_blank_ignored
        (first blank : string) (m : Z) (d r1 r2 : list string) :
  truthy blank = false ->
  test_case_iter (first :: d ++ blank :: r1) m
  = test_case_iter (first :: d ++ blank :: r2) m.
Proof.
  intros Hblank. unfold test_case_iter.
  destruct (m <? 1); [reflexivity|].
  destruct (int first); [reflexivity|].
  apply loop_after_blank. exact Hblank.
Qed.

Lemma lines_after_blank_ignored_witness :
  test_case_iter ("2" :: ["a"; "b"] ++ EmptyString :: ["c"; "d"]) 1
  = test_case_iter ("2" :: ["a"; "b"] ++ EmptyString :: []) 1.
Proof.
  apply (lines_after_blank_ignored "2" EmptyString 1 ["a"; "b"] ["c"; "d"] []).
  reflexivity.
Defined.

Lemma int_raises_ValueError (s : string) (e : exn) :
  int s = inl e -> exn_cls e = ValueError.
Proof.
  unfold int. destruct (strip s) as [|c t].
  - intros H. injection H as <-. reflexivity.
  - destruct (if Ascii.eqb c "-"%char then (true, t)
              else if Ascii.eqb c "+"%char then (false, t)
                   else (false, String c t)) as [neg body].
    destruct body; [intros H; injection H as <-; reflexivity|].
    destruct (digits 0 (String a body));
      intros H; [discriminate|injection H as <-; reflexivity].
Qed.

Lemma loop_never_too_few (k m : Z) (seq : list string) :
  Forall (fun l => truthy l = true) seq ->
  forall ctr next, ending (loop k m ctr next seq) <> Some too_few.
Proof.
  induction 1 as [|line seq Hline _ IH]; intros ctr next; [discriminate|].
  cbn [loop]. rewrite Hline.
  destruct ((k <? 0) || (ctr / m <? k)); [|discriminate].
  destruct (m =? 1); [apply IH|].
  destruct ((ctr + 1) mod m =? 0); apply IH.
Qed.

(** X3.  "Too few inputs" is raised at a blank line only: on an input
    none of whose lines is empty the segmenter never raises it, however
    few cases the input holds. *)
Theorem too_few_needs_blank_line
        (first : string) (m : Z) (seq : list string) :
  Forall (fun l => truthy l = true) seq ->
  ending (test_case_iter (first :: seq) m) <> Some too_few.
Proof.
  intros Hseq. unfold test_case_iter.
  destruct (m <? 1); [discriminate|].
  destruct (int first) as [e|k] eqn:E.
  - apply int_raises_ValueError in E. cbn [ending]. intros H.
    injection H as ->. discriminate.
  - apply loop_never_too_few. exact Hseq.
Qed.

Lemma too_few_needs_blank_line_witness :
  ending (test_case_iter ("5" :: ["a"; "b"]) 1) <> Some too_few.
Proof.
  apply (too_few_needs_blank_line "5" 1 ["a"; "b"]). repeat constructor.
Defined.

(** ** The sources of lines *)

(** On an iterator that yields the lines of a list and stops, the
    segmenter is the one over the list. *)
Lemma loop_from_list (k m : Z) (seq : list string) :
  forall ctr next,
    loop_from k m ctr next (prepend seq TStop) = loop k m ctr next seq.
Proof.
  induction seq as [|line seq IH]; intros ctr next; [reflexivity|].
  cbn [prepend loop_from loop].
  destruct (truthy line); [|reflexivity].
  destruct ((k <? 0) || (ctr / m <? k)); [|reflexivity].
  destruct (m =? 1); [rewrite IH; reflexivity|].
  destruct ((ctr + 1) mod m =? 0); rewrite IH; reflexivity.
Qed.

Lemma test_case_iter_from_list (seq : list string) (m : Z) :
  test_case_iter_from (prepend seq TStop) m = test_case_iter seq m.
Proof.
  unfold test_case_iter_from, test_case_iter.
  destruct (m <? 1); [reflexivity|].
  destruct seq as [|first seq]; [reflexivity|]. cbn [prepend].
  destruct (int first); [reflexivity|]. apply loop_from_list.
Qed.

(** [raw_input_iter] yields the lines typed before the first empty one. *)
Lemma raw_input_iter_lines (eof : exn) (stdin : list string) :
  raw_input_iter eof stdin
  = prepend (data_lines stdin)
            (match after_data stdin with
             | [] => TRaise eof
             | _ => TStop
             end).
Proof.
  induction stdin as [|inp stdin IH]; [reflexivity|].
  cbn [raw_input_iter data_lines after_data].
  destruct (truthy inp); [|reflexivity].
  cbn [prepend]. rewrite IH. reflexivity.
Qed.

(** X4.  Interactive input: the empty line that ends the input is
    consumed by [raw_input_iter] and never reaches the segmenter, which
    sees the lines before it and then the end of the iteration.  The
    segmenter therefore behaves as on the list of those lines, without a
    blank line, and whatever is typed afterwards is not read. *)
Theorem interactive_blank_line_not_forwarded
        (eof : exn) (lines : list string) (blank : string)
        (rest : list string) (m : Z) :
  Forall (fun l => truthy l = true) lines ->
  truthy blank = false ->
  test_case_iter_from (raw_input_iter eof (lines ++ blank :: rest)) m
  = test_case_iter lines m.
Proof.
  intros Hlines Hblank.
  rewrite raw_input_iter_lines, <- test_case_iter_from_list.
  f_equal. rewrite (data_lines_app lines (blank :: rest) Hlines).
  cbn [data_lines]. rewrite Hblank, app_nil_r. f_equal.
  clear m. induction Hlines as [|l lines Hl _ IH]; cbn [app after_data].
  - rewrite Hblank. reflexivity.
  - rewrite Hl. exact IH.
Qed.

Lemma interactive_blank_line_not_forwarded_witness :
  test_case_iter_from
    (raw_input_iter (Raise StandardError "EOF when reading a line")
                    (["3"; "a"] ++ EmptyString :: ["b"])) 1
  = test_case_iter ["3"; "a"] 1.
Proof.
  apply (interactive_blank_line_not_forwarded
           (Raise StandardError "EOF when reading a line")
           ["3"; "a"] EmptyString ["b"] 1).
  - repeat constructor.
  - reflexivity.
Defined.

Lemma loop_from_never_too_few (k m : Z) (eof : exn) (stdin : list string) :
  eof <> too_few ->
  forall ctr next,
    ending (loop_from k m ctr next (raw_input_iter eof stdin)) <> Some too_few.
Proof.
  intros Heof. induction stdin as [|inp stdin IH]; intros ctr next.
  - cbn. congruence.
  - cbn [raw_input_iter]. destruct (truthy inp) eqn:Hinp; [|discriminate].
    cbn [loop_from]. rewrite Hinp.
    destruct ((k <? 0) || (ctr / m <? k)); [|discriminate].
    destruct (m =? 1); [apply IH|].
    destruct ((ctr + 1) mod m =? 0); apply IH.
Qed.

(** X5.  Interactive input never raises "Too few inputs", whatever is
    typed and however few cases are entered before the empty line or the
    end of the input. *)
Theorem interactive_never_too_few
        (eof : exn) (stdin : list string) (m : Z) :
  eof <> too_few ->
  ending (test_case_iter_from (raw_input_iter eof stdin) m) <> Some too_few.
Proof.
  intros Heof. unfold test_case_iter_from.
  destruct (m <? 1); [discriminate|].
  destruct stdin as [|first stdin]; [cbn; congruence|].
  cbn [raw_input_iter]. destruct (truthy first); [|discriminate].
  destruct (int first) as [e|k] eqn:E.
  - apply int_raises_ValueError in E. cbn [ending]. intros H.
    injection H as ->. discriminate.
  - apply loop_from_never_too_few. exact Heof.
Qed.

Lemma interactive_never_too_few_witness :
  ending (test_case_iter_from
            (raw_input_iter (Raise StandardError "EOF when reading a line")
                            ["3"; "a"; EmptyString]) 1)
  <> Some too_few.
Proof.
  apply (interactive_never_too_few
           (Raise StandardError "EOF when reading a line")
           ["3"; "a"; EmptyString] 1).
  discriminate.
Defined.

(** *** Lines of a file, lines of a text *)

Lemma file_lines_truthy (content : string) :
  Forall (fun l => truthy l = true) (file_lines content).
Proof.
  assert (H : forall n content, (String.length content <= n)%nat ->
                                Forall (fun l => truthy l = true)
                                       (file_lines content)).
  { induction n as [|n IH]; intros [|c s'] Hn; cbn [file_lines];
      try constructor; cbn [String.length] in Hn; try lia.
    destruct (Ascii.eqb c "010"%char).
    { constructor; [reflexivity|apply IH; lia]. }
    destruct (Ascii.eqb c "013"%char).
    { destruct s' as [|c' s'']; [repeat constructor|].
      destruct (Ascii.eqb c' "010"%char);
        (constructor; [reflexivity|apply IH; cbn [String.length] in *; lia]). }
    pose proof (IH s' ltac:(lia)) as Hs.
    destruct (file_lines s') as [|l ls]; [repeat constructor|].
    inversion Hs; subst. constructor; [reflexivity|assumption]. }
  apply (H (String.length content)). lia.
Qed.

Lemma plain_app (a b : string) :
  plain (a ++ b)%string = (plain a && plain b)%bool.
Proof.
  induction a as [|c a IH]; [reflexivity|].
  cbn [String.append plain]. rewrite IH, andb_assoc. reflexivity.
Qed.

(** The lines of a text whose lines hold no line break are these lines. *)
Lemma splitlines_text (ls : list string) :
  Forall (fun l => plain l = true) ls -> splitlines (text ls) = ls.
Proof.
  induction 1 as [|l ls Hl _ IH]; [reflexivity|].
  cbn [text fold_right]. fold (text ls).
  induction l as [|c l IHl].
  - cbn. rewrite IH. reflexivity.
  - cbn [plain] in Hl. apply andb_true_iff in Hl as [Hc Hl'].
    apply andb_true_iff in Hc as [Hn Hr].
    apply negb_true_iff in Hn, Hr.
    cbn [String.append splitlines]. rewrite Hn, Hr.
    rewrite (IHl Hl'). reflexivity.
Qed.

(** Read from a file, each of them keeps its line feed. *)
Lemma file_lines_text (ls : list string) :
  Forall (fun l => plain l = true) ls ->
  file_lines (text ls) = map (fun l => (l ++ LF)%string) ls.
Proof.
  induction 1 as [|l ls Hl _ IH]; [reflexivity|].
  cbn [text fold_right map]. fold (text ls).
  induction l as [|c l IHl].
  - cbn. rewrite IH. reflexivity.
  - cbn [plain] in Hl. apply andb_true_iff in Hl as [Hc Hl'].
    apply andb_true_iff in Hc as [Hn Hr].
    apply negb_true_iff in Hn, Hr.
    cbn [String.append file_lines]. rewrite Hn, Hr.
    rewrite (IHl Hl'). reflexivity.
Qed.

Lemma rstrip_app_space (s b : string) :
  all_space b = true -> rstrip (s ++ b)%string = rstrip s.
Proof.
  intros Hb. induction s as [|c s IH]; cbn [String.append rstrip].
  - apply rstrip_all_space. exact Hb.
  - rewrite IH. reflexivity.
Qed.

(** Whitespace after a text does not change what [strip] returns. *)
Lemma strip_app_space (s b : string) :
  all_space b = true -> strip (s ++ b)%string = strip s.
Proof.
  intros Hb. unfold strip. induction s as [|c s IH]; cbn [String.append lstrip].
  - rewrite (lstrip_all_space b Hb). reflexivity.
  - destruct (isspace c); [exact IH|].
    apply (rstrip_app_space (String c s) b Hb).
Qed.

Lemma int_app_LF (s : string) : int (s ++ LF)%string = int s.
Proof. unfold int. rewrite strip_app_space; reflexivity. Qed.

(** X6.  Input read from a file: every line keeps its line end, so no
    line is empty and the segmenter never raises "Too few inputs",
    whatever the file holds. *)
Theorem file_input_never_too_few (content : string) (m : Z) :
  ending (test_case_iter (file_lines content) m) <> Some too_few.
Proof.
  pose proof (file_lines_truthy content) as Hall.
  unfold test_case_iter. destruct (m <? 1); [discriminate|].
  destruct (file_lines content) as [|first seq]; [discriminate|].
  inversion Hall as [|? ? _ Hseq]; subst.
  destruct (int first) as [e|k] eqn:E.
  - apply int_raises_ValueError in E. cbn [ending]. intros H.
    injection H as ->. discriminate.
  - apply loop_never_too_few. exact Hseq.
Qed.

Lemma app_same_length {A} (a b x y : list A) :
  length a = length b -> a ++ x = b ++ y -> a = b /\ x = y.
Proof.
  revert b. induction a as [|h a IH]; intros [|h' b] Hlen H;
    simpl in *; try discriminate; [auto|].
  injection H as -> H. destruct (IH b ltac:(lia) H) as [-> ->]. auto.
Qed.

(** Groups of one length are determined by their concatenation. *)
Lemma concat_full_inj (m : Z) (gs gs' : list (list string)) :
  1 <= m ->
  Forall (fun g => Z.of_nat (length g) = m) gs ->
  Forall (fun g => Z.of_nat (length g) = m) gs' ->
  concat gs = concat gs' -> gs = gs'.
Proof.
  intros Hm Hgs. revert gs'.
  induction Hgs as [|g gs Hg _ IH]; intros gs' Hgs' H.
  - destruct Hgs' as [|g' gs' Hg' _]; [reflexivity|].
    cbn [concat] in H. destruct g'; [simpl in Hg'; lia|discriminate].
  - destruct Hgs' as [|g' gs' Hg' Hgs'].
    + cbn [concat] in H. destruct g; [simpl in Hg; lia|discriminate].
    + cbn [concat] in H.
      destruct (app_same_length g g' _ _ ltac:(lia) H) as [-> Hrest].
      f_equal. apply IH; assumption.
Qed.

(** X7.  One text, two readings.  A text that holds the count line, the
    [k * m] data lines it declares and then an empty line is accepted when
    a fixture splits it into lines, the empty line ending the input; read
    from a file the same empty line is the line feed alone, which is not
    empty: it counts as a data line and raises "Too many inputs", after
    the same [k] cases. *)
Theorem blank_line_in_file_is_excess
        (first : string) (k m : Z) (d : list string) :
  1 <= m ->
  int first = inr k ->
  0 <= k ->
  plain first = true ->
  Forall (fun l => plain l = true) d ->
  Forall (fun l => truthy l = true) d ->
  Z.of_nat (length d) = k * m ->
  let txt := text (first :: d ++ [EmptyString]) in
  ending (test_case_iter (splitlines txt) m) = None
  /\ ending (test_case_iter (file_lines txt) m) = Some too_many
  /\ yielded (test_case_iter (file_lines txt) m)
     = yielded (test_case_iter (splitlines txt) m)
  /\ Z.of_nat (length (yielded (test_case_iter (file_lines txt) m))) = k.
Proof.
  intros Hm Hfirst Hk Hpf Hpd Htd Hlen txt.
  assert (Hplain : Forall (fun l => plain l = true)
                          (first :: d ++ [EmptyString])).
  { constructor; [assumption|]. apply Forall_app. split; [assumption|].
    repeat constructor. }
  unfold txt. rewrite (splitlines_text _ Hplain), (file_lines_text _ Hplain).
  cbn [map]. rewrite map_app. cbn [map String.append].
  fold LF.
  destruct (accept_from_start first k m Hm Hfirst d [EmptyString])
    as (gs & buf & E & Hcat & Hgs & Hb); [assumption|right; lia|].
  rewrite Hlen, Z.mod_mul in Hb by lia.
  apply length_zero_nil in Hb. subst buf. rewrite app_nil_r in Hcat.
  assert (Htd' : Forall (fun l => truthy l = true)
                        (map (fun l => (l ++ LF)%string) d)).
  { apply Forall_forall. intros l Hl. apply in_map_iff in Hl as (l0 & <- & _).
    destruct l0; reflexivity. }
  assert (Hfirst' : int (first ++ LF)%string = inr k)
    by (rewrite int_app_LF; exact Hfirst).
  destruct (accept_from_start (first ++ LF)%string k m Hm Hfirst'
                              (map (fun l => (l ++ LF)%string) d) [LF])
    as (gs' & buf' & E' & Hcat' & Hgs' & Hb');
    [assumption|right; rewrite length_map; lia|].
  rewrite length_map in E', Hb'.
  rewrite Hlen, Z.mod_mul in Hb' by lia.
  apply length_zero_nil in Hb'. subst buf'. rewrite app_nil_r in Hcat'.
  rewrite map_map in Hcat'.
  assert (Hsame : gs' = gs).
  { apply (concat_full_inj m); try assumption.
    rewrite <- Hcat, <- Hcat'. apply map_ext. intros l.
    apply strip_app_space. reflexivity. }
  subst gs'.
  assert (Hcount : Z.of_nat (length gs) = k).
  { apply (f_equal (fun l => Z.of_nat (length l))) in Hcat.
    rewrite length_map, (concat_full_length m gs Hgs) in Hcat. nia. }
  rewrite E, E'. rewrite !ending_prepend, !yielded_prepend.
  rewrite loop_blank by reflexivity.
  rewrite (loop_excess k m (Z.of_nat (length d)) (next_of []) LF [])
    by (try reflexivity; rewrite Hlen, Z.div_mul by lia; lia).
  rewrite Hlen, Z.div_mul by lia. rewrite Z.eqb_refl, orb_true_r.
  cbn [ending yielded]. rewrite app_nil_r, length_map. auto.
Qed.

Lemma blank_line_in_file_is_excess_witness :
  let txt := text ("2" :: ["3"; "4"] ++ [EmptyString]) in
  ending (test_case_iter (splitlines txt) 1) = None
  /\ ending (test_case_iter (file_lines txt) 1) = Some too_many
  /\ yielded (test_case_iter (file_lines txt) 1)
     = yielded (test_case_iter (splitlines txt) 1)
  /\ Z.of_nat (length (yielded (test_case_iter (file_lines txt) 1))) = 2.
Proof.
  apply (blank_line_in_file_is_excess "2" 2 1 ["3"; "4"]).
  - lia.
  - reflexivity.
  - lia.
  - reflexivity.
  - repeat constructor.
  - repeat constructor.
  - reflexivity.
Defined.

(** X8.  [TestData.iter_cases] hands the segmenter the lines of the
    fixture text: for a text made of lines without line break, each closed
    by a line feed, it is the segmenter on exactly these lines. *)
Theorem iter_cases_of_text (data : TestData) (ls : list string) (m : Z) :
  input_str data = Some (text ls) ->
  Forall (fun l => plain l = true) ls ->
  iter_cases data m = ret (test_case_iter ls m).
Proof.
  intros Hin Hls. unfold iter_cases. rewrite Hin. cbn [slot bind ret].
  rewrite (splitlines_text ls Hls). reflexivity.
Qed.

Lemma iter_cases_of_text_witness :
  iter_cases {| test_name := None; num_cases := None;
                input_str := Some (text ["1"; "a b"; EmptyString]);
                output_str := None; error_class := None |} 1
  = ret (test_case_iter ["1"; "a b"; EmptyString] 1).
Proof.
  apply iter_cases_of_text; [reflexivity|repeat constructor].
Defined.

(** ** The execution strategies *)

Section StrategyFacts.

Context {P R : Type}.
Variable self : @Main P R.

Lemma yielded_enumerate {A} (t : trace A) :
  forall start, map snd (yielded (enumerate t start)) = yielded t.
Proof.
  induction t as [a rest IH| |e]; intros start; cbn; [|reflexivity..].
  rewrite IH. reflexivity.
Qed.

Lemma ending_enumerate {A} (t : trace A) :
  forall start, ending (enumerate t start) = ending t.
Proof.
  induction t as [a rest IH| |e]; intros start; cbn; [apply IH|reflexivity..].
Qed.

(** A serial run that returns has met no error of the segmenter and holds
    one result per job. *)
Lemma serial_returns_count (jobs : trace job) :
  forall rs, execute_serially self jobs = inr rs ->
             ending jobs = None /\ length rs = length (yielded jobs).
Proof.
  induction jobs as [j rest IH| |e]; intros rs H; cbn [execute_serially] in H.
  - destruct (execute self j); cbn [bind] in H; [discriminate|].
    destruct (execute_serially self rest) as [|rs']; cbn [bind ret] in H;
      [discriminate|].
    injection H as <-. destruct (IH rs' eq_refl) as [He Hl].
    cbn. rewrite Hl. auto.
  - injection H as <-. auto.
  - discriminate.
Qed.

Lemma serial_by_position (t : trace case) :
  forall start rs,
    execute_serially self (enumerate t start) = inr rs ->
    forall i c r,
      nth_error (yielded t) i = Some c ->
      nth_error rs i = Some r ->
      execute self (start + Z.of_nat i, c) = inr r.
Proof.
  induction t as [a rest IH| |e]; intros start rs H i c r Hc Hr;
    cbn [enumerate execute_serially] in H.
  - destruct (execute self (start, a)) as [|r0] eqn:E0; cbn [bind] in H;
      [discriminate|].
    destruct (execute_serially self (enumerate rest (start + 1))) as [|rs'] eqn:E;
      cbn [bind ret] in H; [discriminate|].
    injection H as <-. destruct i as [|i]; cbn in Hc, Hr.
    + injection Hc as <-. injection Hr as <-. rewrite Z.add_0_r. exact E0.
    + replace (start + Z.of_nat (S i)) with (start + 1 + Z.of_nat i) by lia.
      apply (IH (start + 1) rs' E i c r Hc Hr).
  - destruct i; discriminate.
  - discriminate.
Qed.

End StrategyFacts.

(** X9.  When the serial strategy returns, the segmenter has ended
    without error, there is one result per case, and the result at
    position [i] is what [execute] returns for the case at position [i]
    with the case number [i + 1]. *)
Theorem serial_results_by_position
        {P R : Type} (self : @Main P R) (t : trace case) (rs : list R) :
  execute_serially self (enumerate t 1) = inr rs ->
  ending t = None
  /\ length rs = length (yielded t)
  /\ forall i c r,
      nth_error (yielded t) i = Some c ->
      nth_error rs i = Some r ->
      execute self (Z.of_nat i + 1, c) = inr r.
Proof.
  intros H. destruct (serial_returns_count self _ rs H) as [He Hl].
  unfold job in *. rewrite ending_enumerate in He.
  rewrite <- (length_map snd), yielded_enumerate in Hl.
  repeat split; try assumption.
  intros i c r Hc Hr. rewrite Z.add_comm.
  apply (serial_by_position self t 1 rs H i c r Hc Hr).
Qed.

Lemma serial_results_by_position_witness :
  ending (test_case_iter ["2"; "a"; "b"] 1) = None
  /\ length [CaseLine "a"; CaseLine "b"]
     = length (yielded (test_case_iter ["2"; "a"; "b"] 1))
  /\ forall i c r,
      nth_error (yielded (test_case_iter ["2"; "a"; "b"] 1)) i = Some c ->
      nth_error [CaseLine "a"; CaseLine "b"] i = Some r ->
      execute (echo 1 None) (Z.of_nat i + 1, c) = inr r.
Proof.
  apply (serial_results_by_position (echo 1 None)
           (test_case_iter ["2"; "a"; "b"] 1)).
  reflexivity.
Defined.

(** X10.  A serial run that returns on an input whose data lines end at a
    blank line returns exactly as many results as the count line declares,
    when that count is not negative. *)
Theorem serial_success_declared_count
        {P R : Type} (self : @Main P R) (first : string) (k m : Z)
        (seq : list string) (rs : list R) :
  1 <= m ->
  int first = inr k ->
  0 <= k ->
  after_data seq <> [] ->
  execute_serially self (enumerate (test_case_iter (first :: seq) m) 1) = inr rs ->
  Z.of_nat (length rs) = k.
Proof.
  intros Hm Hfirst Hk Hblank H.
  destruct (serial_returns_count self _ rs H) as [He Hl].
  unfold job in *. rewrite ending_enumerate in He.
  rewrite <- (length_map snd), yielded_enumerate in Hl.
  destruct (bounded_run first k m Hm Hfirst seq Hk)
    as (gs & fin & E & Hfin & _ & Hexact).
  rewrite E in He, Hl. rewrite ending_prepend in He.
  rewrite yielded_prepend, Hfin, app_nil_r, length_map in Hl.
  rewrite Hl. apply Hexact; assumption.
Qed.

Lemma serial_success_declared_count_witness :
  Z.of_nat (length [CaseLine "a"; CaseLine "b"]) = 2.
Proof.
  apply (serial_success_declared_count
           (echo 1 None) "2" 2 1 ["a"; "b"; EmptyString; "c"]).
  - lia.
  - reflexivity.
  - lia.
  - discriminate.
  - reflexivity.
Defined.

(** X11.  The serial strategy stops at the first job that raises: the
    exception of that job leaves [execute_serially], whatever follows it in
    the stream, be it further jobs or an error of the segmenter. *)
Theorem serial_aborts_at_first_failure
        {P R : Type} (self : @Main P R) (js : list job) (j : job)
        (rest : trace job) (e : exn) :
  Forall (fun j' => exists r, execute self j' = inr r) js ->
  execute self j = inl e ->
  execute_serially self (prepend js (TYield j rest)) = inl e.
Proof.
  intros Hjs Hj. induction Hjs as [|j' js [r Hr] _ IH].
  - cbn [prepend execute_serially]. rewrite Hj. reflexivity.
  - cbn [prepend execute_serially]. rewrite Hr, IH. reflexivity.
Qed.

Lemma serial_aborts_at_first_failure_witness :
  execute_serially
    {| name := "main"; lines_per_case := 1; threads := None;
       parse_input := Main_parse_input; solve := @Main_solve case;
       str_ := str_case; execute_all := None |}
    (prepend [] (TYield (1, CaseLine "a") (TRaise too_many)))
  = inl (Raise Exception "not implemented").
Proof.
  apply (serial_aborts_at_first_failure _ [] (1, CaseLine "a")).
  - constructor.
  - reflexivity.
Defined.

Lemma to_list_raises {A} (t : trace A) (e : exn) :
  ending t = Some e -> to_list t = inl e.
Proof.
  induction t as [a rest IH| |e']; cbn; intros H; try discriminate.
  - rewrite (IH H). reflexivity.
  - congruence.
Qed.

(** X12.  The parallel strategy lists all the jobs before it hands any to
    the pool: an error of the segmenter leaves [execute_threaded] as it
    is, for every order of arrival of results and whatever the jobs before
    it would have returned or raised. *)
Theorem threaded_raises_segmenter_error
        {P R : Type} (cpu_count : Z) (self : @Main P R) (t : Z)
        (sched : list nat) (jobs : trace job) (e : exn) :
  threads self = Some t ->
  1 <= Z.min t cpu_count ->
  ending jobs = Some e ->
  execute_threaded cpu_count self sched jobs = Raised e.
Proof.
  intros Ht Hp He. unfold execute_threaded. rewrite Ht.
  test_false (Z.min t cpu_count <? 1).
  unfold pool_map. rewrite (to_list_raises jobs e He). reflexivity.
Qed.

Lemma threaded_raises_segmenter_error_witness :
  execute_threaded 8 (echo 1 (Some 2)) [0%nat]
                   (enumerate (test_case_iter ["1"; "a"; "b"] 1) 1)
  = Raised too_many.
Proof.
  apply (threaded_raises_segmenter_error 8 (echo 1 (Some 2)) 2).
  - reflexivity.
  - simpl. lia.
  - reflexivity.
Defined.

(** ** Printing *)

Lemma plain_decimal (n : Z) :
  plain (NilZero.string_of_int (Z.to_int n)) = true.
Proof.
  assert (Hu : forall d, plain (NilEmpty.string_of_uint d) = true)
    by (induction d; simpl; auto).
  assert (Hz : forall d, plain (NilZero.string_of_uint d) = true)
    by (intros d; destruct d; try reflexivity; apply (Hu (_ d))).
  destruct (Z.to_int n) as [d|d]; cbn [NilZero.string_of_int plain];
    [apply Hz|rewrite Hz; reflexivity].
Qed.

Lemma append_assoc (a b c : string) :
  ((a ++ b) ++ c)%string = (a ++ (b ++ c))%string.
Proof. induction a as [|x a IH]; cbn; congruence. Qed.

Lemma append_nil_r (a : string) : (a ++ EmptyString)%string = a.
Proof. induction a as [|x a IH]; cbn; congruence. Qed.

Section PrintingFacts.

Context {P R : Type}.
Variable self : @Main P R.

Lemma print_results_text (results : list R) :
  forall start out,
    fold_left (fun out ir => print_result self (fst ir) (snd ir) out)
              (enumerate_list results start) out
    = (out ++ text (map (result_line self) (enumerate_list results start)))%string.
Proof.
  induction results as [|r results IH]; intros start out.
  - cbn. rewrite append_nil_r. reflexivity.
  - cbn [enumerate_list fold_left map text fold_right fst snd].
    rewrite IH. unfold print_result, result_line. cbn [fst snd].
    fold (text (map (result_line self) (enumerate_list results (start + 1)))).
    rewrite !append_assoc. reflexivity.
Qed.

Lemma plain_result_line (ir : Z * R) :
  plain (str_ self (snd ir)) = true -> plain (result_line self ir) = true.
Proof.
  intros H. unfold result_line.
  rewrite !plain_app, plain_decimal, H. reflexivity.
Qed.

Lemma nth_error_enumerate_list {A} (l : list A) :
  forall start i,
    nth_error (enumerate_list l start) i
    = option_map (fun a => (start + Z.of_nat i, a)) (nth_error l i).
Proof.
  induction l as [|a l IH]; intros start [|i]; cbn; try reflexivity.
  - rewrite Z.add_0_r. reflexivity.
  - rewrite IH. destruct (nth_error l i); cbn; [|reflexivity].
    do 2 f_equal. lia.
Qed.

End PrintingFacts.

(** X13.  What the print loop writes: when no result renders with a line
    break, the text written for the results has exactly one line per
    result, and line [i] is ["Case #"], the number [i + 1], [": "] and the
    rendering of the result at position [i]. *)
Theorem one_line_per_result
        {P R : Type} (self : @Main P R) (results : list R) :
  Forall (fun r => plain (str_ self r) = true) results ->
  length (splitlines (print_results self results EmptyString)) = length results
  /\ forall i r,
      nth_error results i = Some r ->
      nth_error (splitlines (print_results self results EmptyString)) i
      = Some ("Case #" ++ NilZero.string_of_int (Z.to_int (Z.of_nat i + 1))
                       ++ ": " ++ str_ self r)%string.
Proof.
  intros Hplain. unfold print_results.
  rewrite print_results_text. cbn [String.append].
  assert (Hlines : Forall (fun l => plain l = true)
                          (map (result_line self) (enumerate_list results 1))).
  { apply Forall_forall. intros l Hl.
    apply in_map_iff in Hl as (ir & <- & Hir).
    apply plain_result_line.
    apply In_nth_error in Hir as [i Hi].
    rewrite nth_error_enumerate_list in Hi.
    destruct (nth_error results i) as [r|] eqn:Er; [|discriminate].
    injection Hi as <-. cbn [snd].
    rewrite Forall_forall in Hplain. apply Hplain.
    apply (nth_error_In _ _ Er). }
  rewrite (splitlines_text _ Hlines). split.
  - rewrite length_map. clear. generalize 1.
    induction results; intros s; cbn; [reflexivity|]. rewrite IHresults.
    reflexivity.
  - intros i r Hr. rewrite nth_error_map, nth_error_enumerate_list, Hr.
    cbn [option_map]. unfold result_line. cbn [fst snd].
    rewrite (Z.add_comm 1). reflexivity.
Qed.

Lemma one_line_per_result_witness :
  length (splitlines
            (print_results (echo 1 None) [CaseLine "3"; CaseLine "4"]
                           EmptyString))
  = length [CaseLine "3"; CaseLine "4"]
  /\ forall i r,
      nth_error [CaseLine "3"; CaseLine "4"] i = Some r ->
      nth_error (splitlines
                   (print_results (echo 1 None) [CaseLine "3"; CaseLine "4"]
                                  EmptyString)) i
      = Some ("Case #" ++ NilZero.string_of_int (Z.to_int (Z.of_nat i + 1))
                       ++ ": " ++ str_ (echo 1 None) r)%string.
Proof.
  apply (one_line_per_result (echo 1 None) [CaseLine "3"; CaseLine "4"]).
  repeat constructor.
Defined.

(** ** The test harness *)



(** X15.  A fixture that expects a failure of class [c]: the test passes
    exactly when the pipeline raises an exception whose class is [c] or a
    subclass of [c], or when the pipeline returns and [c] is
    [AssertionError] or one of its base classes; in every other case the
    exception of the pipeline, or the [AssertionError] "Expected execution
    failure", leaves the test. *)
Theorem expected_failure_outcome
        {P R : Type} (driver : @Main P R) (data : TestData)
        (s : string) (c : exn_class)
        (f : trace job -> result (list R)) :
  input_str data = Some s ->
  error_class data = Some (VClass c) ->
  execute_all driver = Some f ->
  let outcome :=
    f (enumerate (test_case_iter (splitlines s) (lines_per_case driver)) 1) in
  (_run driver data = ret tt
   <-> (exists e, outcome = inl e /\ issubclass (exn_cls e) c = true)
       \/ (exists rs, outcome = inr rs /\ issubclass AssertionError c = true))
  /\ (forall e, outcome = inl e -> issubclass (exn_cls e) c = false ->
                _run driver data = inl e)
  /\ (forall rs, outcome = inr rs -> issubclass AssertionError c = false ->
                 _run driver data
                 = raise AssertionError "Expected execution failure").
Proof.
  intros Hs Hc Hf outcome.
  destruct outcome as [e|rs] eqn:Hrun; unfold outcome in Hrun.
  - rewrite (run_failure driver data s c f Hs Hc Hf e Hrun).
    repeat split.
    + intros H. left. exists e. split; [reflexivity|].
      destruct (issubclass (exn_cls e) c); [reflexivity|discriminate].
    + intros [(e' & He' & Hsub)|(rs & Hrs & _)]; [|discriminate].
      injection He' as <-. rewrite Hsub. reflexivity.
    + intros e' He' Hsub. injection He' as <-. rewrite Hsub. reflexivity.
    + discriminate.
  - rewrite (run_success driver data s c f Hs Hc Hf rs Hrun).
    repeat split.
    + intros H. right. exists rs. split; [reflexivity|].
      destruct (issubclass AssertionError c); [reflexivity|discriminate].
    + intros [(e' & He' & _)|(rs' & _ & Hsub)]; [discriminate|].
      rewrite Hsub. reflexivity.
    + discriminate.
    + intros rs' _ Hsub. rewrite Hsub. reflexivity.
Qed.

Lemma expected_failure_outcome_witness :
  _run (echo 1 None)
       {| test_name := Some "excess";
          num_cases := Some 1;
          input_str := Some (text ["1"; "A"; "B"]);
          output_str := None;
          error_class := Some (VClass StandardError) |}
  = ret tt.
Proof.
  destruct (expected_failure_outcome
              (echo 1 None)
              {| test_name := Some "excess";
                 num_cases := Some 1;
                 input_str := Some (text ["1"; "A"; "B"]);
                 output_str := None;
                 error_class := Some (VClass StandardError) |}
              (text ["1"; "A"; "B"]) StandardError
              (execute_serially (echo_base 1)) eq_refl eq_refl eq_refl)
    as [Hpass _].
  apply Hpass. left. exists too_many. split; reflexivity.
Defined.



(** X17.  No fixture can be built: for every argument
    [TestData.__init__] raises [NameError], on the name [output_str] when
    [expected] is a [str] and on the name [error_class] otherwise. *)
Theorem fixture_construction_always_raises
        (dedent : string -> string) (test_name : string) (num_cases : Z)
        (input_str : string) (expected : pyval) :
  TestData_init dedent test_name num_cases input_str expected
  = raise NameError
          ("global name '"
             ++ match expected with
                | VStr _ => "output_str"
                | _ => "error_class"
                end
             ++ "' is not defined")%string.
Proof. destruct expected; reflexivity. Qed.

(** ** Pickling instance methods *)

Section PickleFacts.

Context {Obj : Type}.

Lemma find_func_spec (func_name : string) (mro : list class) :
  match find_func func_name mro with
  | Some (func, cls) =>
      exists before after,
        mro = before ++ cls :: after
        /\ Forall (fun c => dict_get (cls_dict c) func_name = None) before
        /\ dict_get (cls_dict cls) func_name = Some func
  | None => Forall (fun c => dict_get (cls_dict c) func_name = None) mro
  end.
Proof.
  induction mro as [|c mro IH]; cbn [find_func]; [constructor|].
  destruct (dict_get (cls_dict c) func_name) as [func|] eqn:E.
  - exists [], mro. repeat split; [constructor|exact E].
  - destruct (find_func func_name mro) as [[func cls]|].
    + destruct IH as (before & after & -> & Hb & Hf).
      exists (c :: before), after. repeat split; [constructor|]; assumption.
    + constructor; assumption.
Qed.

End PickleFacts.

(** X18.  Round trip of a method of the class it is bound through: when
    the [__dict__] of [im_class] holds the function of the method under
    the function's own name, unpickling what [_pickle_method] returns
    gives the method back, with the same function, object and class. *)
Theorem pickle_roundtrip_own_method {Obj : Type} (m : @method Obj) :
  dict_get (cls_dict (im_class m)) (func_name_ (im_func m)) = Some (im_func m) ->
  _unpickle_method (_pickle_method m) = inr m.
Proof.
  intros H. destruct m as [func obj cls]. cbn in *.
  destruct cls as [name dict bases]. cbn in *. rewrite H. reflexivity.
Qed.

Lemma pickle_roundtrip_own_method_witness :
  let f := {| func_name_ := "execute"; func_id := 7 |} in
  let m := {| im_func := f; im_self := tt;
              im_class := Class "Main" [("solve", {| func_name_ := "solve";
                                                    func_id := 3 |});
                                        ("execute", f)] [] |} in
  _unpickle_method (_pickle_method m) = inr m.
Proof.
  apply (pickle_roundtrip_own_method
           {| im_func := {| func_name_ := "execute"; func_id := 7 |};
              im_self := tt;
              im_class :=
                Class "Main" [("solve", {| func_name_ := "solve";
                                          func_id := 3 |});
                              ("execute", {| func_name_ := "execute";
                                             func_id := 7 |})] [] |}).
  reflexivity.
Defined.

(** X19.  In general the round trip keeps the object and resolves the
    function anew by its name: the method that comes back is bound to the
    same object, its class is the first class of the MRO of [im_class]
    whose [__dict__] holds the name, and its function is what that
    [__dict__] holds; it fails, [func] being unbound, exactly when no class
    of the MRO holds the name. *)
Theorem unpickle_resolves_by_name {Obj : Type} (m : @method Obj) :
  match _unpickle_method (_pickle_method m) with
  | inr m' =>
      im_self m' = im_self m
      /\ exists before after,
          cls_mro (im_class m) = before ++ im_class m' :: after
          /\ Forall (fun c => dict_get (cls_dict c) (func_name_ (im_func m))
                              = None) before
          /\ dict_get (cls_dict (im_class m')) (func_name_ (im_func m))
             = Some (im_func m')
  | inl e =>
      e = UnboundLocalError "func"
      /\ Forall (fun c => dict_get (cls_dict c) (func_name_ (im_func m)) = None)
                (cls_mro (im_class m))
  end.
Proof.
  unfold _unpickle_method, _pickle_method.
  pose proof (find_func_spec (func_name_ (im_func m)) (cls_mro (im_class m)))
    as H.
  destruct (find_func (func_name_ (im_func m)) (cls_mro (im_class m)))
    as [[func cls]|]; cbn [im_self im_class im_func]; auto.
Qed.

(** A method inherited from a base class comes back bound to the base
    class; a function stored under another name than its own is not
    found. *)
Example unpickle_inherited_and_renamed :
  let execute := {| func_name_ := "execute"; func_id := 1 |} in
  let serial := {| func_name_ := "execute_serially"; func_id := 2 |} in
  let lam := {| func_name_ := "<lambda>"; func_id := 3 |} in
  let Main := Class "Main" [("execute", execute);
                            ("execute_serially", serial)] [] in
  let Sub := Class "Sub" [("execute_all", serial); ("solve", lam)] [Main] in
  _unpickle_method (_pickle_method
                      {| im_func := execute; im_self := tt; im_class := Sub |})
  = inr {| im_func := execute; im_self := tt; im_class := Main |}
  /\ _unpickle_method (_pickle_method
                         {| im_func := serial; im_self := tt; im_class := Sub |})
     = inr {| im_func := serial; im_self := tt; im_class := Main |}
  /\ _unpickle_method (_pickle_method
                         {| im_func := lam; im_self := tt; im_class := Sub |})
     = inl (UnboundLocalError "func").
Proof. repeat split. Qed.
